(** * A TL2-style software transactional memory: the model and its properties

    Shallow embedding of [data-structures.cpp] (the versioned write lock) and
    of [tm.cpp] (the transaction manager).  The program is run one call at a
    time: a call is a function from the state of the process (global version
    clock, lock stripes, memory) to the state after the call, so every
    atomic load, store and exchange sees the value left by the previous one. *)

From stdpp Require Import gmap list.
From Stdlib Require Import ZArith Lia.

#[local] Set Warnings "-clear-no-such-hyp".

Open Scope Z_scope.

(** ** Machine words *)

(** [word] is [uintptr_t] and [version] is [uint64_t]: 64-bit unsigned
    integers, kept in [Z] with the wrap-around written out. *)
Definition wrap (x : Z) : Z := x mod 2 ^ 64.

(** ** data-structures.cpp: VersionedWriteLock *)

Module VersionedWriteLock.

(** [~1]: the [int] -2, converted to a 64-bit word. *)
Definition not_1 : Z := 2 ^ 64 - 2.

(** [~1u]: the [unsigned int] 0xFFFFFFFE, zero-extended to a 64-bit word. *)
Definition not_1u : Z := 2 ^ 32 - 2.

(** The constructor: [version_and_lock{0}]. *)
Definition init : Z := 0.

(** [version_and_lock.compare_exchange_weak(expected, desired)] on a word
    that no other thread touches and with no spurious failure: the result
    and the word left behind. *)
Definition compare_exchange (current expected desired : Z) : bool * Z :=
  if current =? expected then (true, desired) else (false, current).

(** [bool lock()]: the result and the new [version_and_lock]. *)
Definition lock (version_and_lock : Z) : bool * Z :=
  let expected := Z.land version_and_lock not_1 in
  let desired := Z.lor expected 1 in
  compare_exchange version_and_lock expected desired.

(** [void unlock()]: the new [version_and_lock]. *)
Definition unlock (version_and_lock : Z) : Z :=
  let current := version_and_lock in
  let new_value := wrap (Z.land current not_1u + 2) in
  new_value.

(** [word getVersion()]. *)
Definition getVersion (version_and_lock : Z) : Z :=
  Z.shiftr version_and_lock 1.

(** [bool isLocked()]: the word [version_and_lock & 1] as a [bool]. *)
Definition isLocked (version_and_lock : Z) : bool :=
  negb (Z.land version_and_lock 1 =? 0).

(** [void setVersion(version v)]: the new [version_and_lock]. *)
Definition setVersion (v : Z) : Z :=
  let new_val := Z.lor (wrap (Z.shiftl v 1)) 1 in
  new_val.

(** A history of calls on one lock. *)
Inductive op : Type :=
| Lock
| SetVersion (v : Z)
| Unlock.

Definition step (w : Z) (o : op) : Z :=
  match o with
  | Lock => snd (lock w)
  | SetVersion v => setVersion v
  | Unlock => unlock w
  end.

Definition run (w : Z) (ops : list op) : Z := fold_left step ops w.

(** A history that keeps to the caller's side of the contract: every
    [setVersion v] is given a 63-bit [v] that is at least the version the
    lock has, and every [unlock] finds a word below [2 ^ 32]. *)
Fixpoint disciplined (w : Z) (ops : list op) : bool :=
  match ops with
  | [] => true
  | o :: rest =>
      match o with
      | Lock => true
      | SetVersion v => (getVersion w <=? v) && (v <? 2 ^ 63)
      | Unlock => (0 <=? w) && (w <? 2 ^ 32)
      end && disciplined (step w o) rest
  end.

End VersionedWriteLock.

Import VersionedWriteLock.

(** ** data-structures.hpp: the transaction and the shared region *)

(** [struct WriteOperation]: where the value was taken from, and the value. *)
Record WriteOperation : Type := mkWriteOperation {
  source : Z;
  val : Z
}.

(** [struct Transaction].  [tm.cpp] uses [read_set] as a set of addresses
    ([read_set.insert(source_addr)], and [validateRead] is given its
    elements) and [write_set] as a map from the target address to its
    [WriteOperation].  The map is kept as the sequence of its entries, in the
    order [tm_end] visits them; an [unordered_map] fixes no order, and what is
    proved of [tm_end] below is proved for every sequence.  A transaction has
    one region, which is the state the calls are run on. *)
Record Transaction : Type := mkTransaction {
  rv : Z;
  read_set : gset Z;
  write_set : list (Z * WriteOperation);
  is_ro : bool
}.

(** The process: the global version clock [gvc], the memory (one word per
    address) and the fields of the one [MemoryRegion]. [locks] is the array
    [new VersionedWriteLock[NUM_LOCKS]] (an index that was never stored to
    holds the constructor's word) and [list_lock] is the word behind
    [region->list_lock], for a region in which that pointer has been made
    to point to a lock; no code among the sources does so. *)
Record State : Type := mkState {
  gvc : Z;
  memory : gmap Z Z;
  size : Z;
  align : Z;
  start : Z;
  locks : gmap Z Z;
  list_lock : Z;
  seg_list : list Z
}.

Definition load (st : State) (addr : Z) : Z := default 0 (memory st !! addr).

Definition store (st : State) (addr v : Z) : State :=
  mkState (gvc st) (<[addr := v]> (memory st)) (size st) (align st) (start st)
          (locks st) (list_lock st) (seg_list st).

Definition lock_at (st : State) (i : Z) : Z :=
  default VersionedWriteLock.init (locks st !! i).

Definition set_lock (st : State) (i w : Z) : State :=
  mkState (gvc st) (memory st) (size st) (align st) (start st)
          (<[i := w]> (locks st)) (list_lock st) (seg_list st).

Definition set_gvc (st : State) (c : Z) : State :=
  mkState c (memory st) (size st) (align st) (start st)
          (locks st) (list_lock st) (seg_list st).

Definition set_list_lock (st : State) (w : Z) : State :=
  mkState (gvc st) (memory st) (size st) (align st) (start st)
          (locks st) w (seg_list st).

Definition push_back_seg (st : State) (seg : Z) : State :=
  mkState (gvc st) (memory st) (size st) (align st) (start st)
          (locks st) (list_lock st) (seg_list st ++ [seg]).

Definition set_read_set (txn : Transaction) (rs : gset Z) : Transaction :=
  mkTransaction (rv txn) rs (write_set txn) (is_ro txn).

Definition set_write_set (txn : Transaction)
    (ws : list (Z * WriteOperation)) : Transaction :=
  mkTransaction (rv txn) (read_set txn) ws (is_ro txn).

(** [sizeof(word)]: the step of the [word*] arithmetic. *)
Definition sizeof_word : Z := 8.

(** [memset(p, 0, n)] on the whole words of the [n] bytes; when [n] is not
    a multiple of [sizeof(word)] the bytes left over are not represented. *)
Definition memset_zero (st : State) (p n : Z) : State :=
  fold_left (fun s k => store s (p + sizeof_word * Z.of_nat k) 0)
            (seq 0 (Z.to_nat (n / sizeof_word))) st.

(** [write_set.find(addr)]. *)
Fixpoint find (addr : Z) (ws : list (Z * WriteOperation))
    : option WriteOperation :=
  match ws with
  | [] => None
  | (k, w) :: rest => if decide (k = addr) then Some w else find addr rest
  end.

(** [write_set.insert_or_assign(addr, w)]. *)
Fixpoint insert_or_assign (addr : Z) (w : WriteOperation)
    (ws : list (Z * WriteOperation)) : list (Z * WriteOperation) :=
  match ws with
  | [] => [(addr, w)]
  | (k, w') :: rest =>
      if decide (k = addr) then (k, w) :: rest
      else (k, w') :: insert_or_assign addr w rest
  end.

(** ** helpers.hpp *)

Module Helpers.

(** Modelled from the spec: [freeHeldLocks] of helpers.hpp, which is not
    among the sources.  The commit "releases all previously acquired
    locks"; the lock of data-structures.cpp has one operation that
    releases it, [unlock], and it is called on every lock of the list.
    What is proved below of the locks a commit leaves is proved with this
    release; for the exits that abort see [restoreHeldLocks]. *)
Definition freeHeldLocks (locks_held : list Z) (st : State) : State :=
  fold_left (fun s lock => set_lock s lock (unlock (lock_at s lock)))
            locks_held st.

(** Modelled from the spec: [validateRead] of helpers.hpp, which is not
    among the sources.  A read of [addr] is valid when the versioned write
    lock of its stripe is not locked and its version is at most the
    bound. *)
Definition validateRead (NUM_LOCKS : Z) (st : State) (addr bound : Z)
    : bool :=
  let lock := lock_at st (addr mod NUM_LOCKS) in
  negb (isLocked lock) && (getVersion lock <=? bound).

End Helpers.

Import Helpers.

(** ** tm.cpp *)

(** The three [return] statements of [tm_end]. *)
Inductive exit : Type :=
| LockFailed        (* line 158 *)
| ValidationFailed  (* line 171 *)
| Committed.        (* line 191 *)

(** What each of them returns. *)
Definition return_value (e : exit) : bool :=
  match e with
  | LockFailed => false
  | ValidationFailed => false
  | Committed => false
  end.

(** [enum class Alloc]. *)
Inductive Alloc : Type :=
| success
| nomem
| abort.

Section TransactionManager.

(** The macro [NUM_LOCKS] of macros.hpp. *)
Variable NUM_LOCKS : Z.

(** [validateRead(shared, addr, bound)] of helpers.hpp: it inspects the
    state and changes nothing. *)
Variable validateRead : State -> Z -> Z -> bool.

(** [&region->locks[(word)target_addr % NUM_LOCKS]], as an index. *)
Definition stripe (target_addr : Z) : Z := target_addr mod NUM_LOCKS.

(** [tm_begin]: [None] is [invalid_tx], returned when [new(nothrow)] gives
    a null pointer. *)
Definition tm_begin (st : State) (is_ro : bool) (out_of_memory : bool)
    : option Transaction :=
  if out_of_memory then None
  else Some (mkTransaction (gvc st) ∅ [] is_ro).

(** [tm_end], (3): lock the write set.  The result tells whether every
    lock was taken and gives the locks held. *)
Fixpoint lock_write_set (ws : list (Z * WriteOperation)) (st : State)
    (locks_held : list Z) : bool * State * list Z :=
  match ws with
  | [] => (true, st, locks_held)
  | keyval :: rest =>
      let target_addr := fst keyval in
      let lock := stripe target_addr in
      match VersionedWriteLock.lock (lock_at st lock) with
      | (true, w) =>
          lock_write_set rest (set_lock st lock w) (locks_held ++ [lock])
      | (false, _) => (false, st, locks_held)
      end
  end.

(** [tm_end], (6): store the write set and set the version of each lock. *)
Definition commit_writes (ws : list (Z * WriteOperation)) (wv : Z)
    (st : State) : State :=
  fold_left
    (fun s keyval =>
       let target_addr := fst keyval in
       let val := val (snd keyval) in
       set_lock (store s target_addr val) (stripe target_addr)
                (setVersion wv))
    ws st.

(** [tm_end]: the [return] reached, the state left, and the transaction
    ([None] once [delete txn] has run). *)
Definition tm_end_run (st : State) (txn : Transaction)
    : exit * State * option Transaction :=
  match lock_write_set (write_set txn) st [] with
  | (false, st1, locks_held) =>
      (LockFailed, freeHeldLocks locks_held st1, Some txn)
  | (true, st1, locks_held) =>
      let wv := gvc st1 in
      let st2 := set_gvc st1 (wrap (wv + 1)) in
      if forallb (fun read => validateRead st2 read (wrap (wv + 1)))
                 (elements (read_set txn))
      then
        let st3 := commit_writes (write_set txn) wv st2 in
        (Committed, freeHeldLocks locks_held st3, None)
      else (ValidationFailed, freeHeldLocks locks_held st2, Some txn)
  end.

Definition tm_end (st : State) (txn : Transaction)
    : bool * State * option Transaction :=
  let '(e, st', txn') := tm_end_run st txn in
  (return_value e, st', txn').

(** [tm_read], read-only transaction: [remaining] more words from index
    [i]. *)
Fixpoint read_ro (remaining : nat) (i : Z) (source_start target_start : Z)
    (st : State) (txn : Transaction) : bool * State * option Transaction :=
  match remaining with
  | O => (true, st, Some txn)
  | S remaining' =>
      let source_addr := source_start + sizeof_word * i in
      let target_addr := target_start + sizeof_word * i in
      let st1 := store st target_addr (load st source_addr) in
      if negb (validateRead st1 source_addr (rv txn)) then (false, st1, None)
      else read_ro remaining' (i + 1) source_start target_start st1 txn
  end.

(** [tm_read], read-write transaction. *)
Fixpoint read_rw (remaining : nat) (i : Z) (source_start target_start : Z)
    (st : State) (txn : Transaction) : bool * State * option Transaction :=
  match remaining with
  | O => (true, st, Some txn)
  | S remaining' =>
      let source_addr := source_start + sizeof_word * i in
      let target_addr := target_start + sizeof_word * i in
      if negb (validateRead st source_addr (rv txn)) then (false, st, None)
      else
        let st1 :=
          match find source_addr (write_set txn) with
          | Some it => store st target_addr (val it)
          | None => store st target_addr (load st source_addr)
          end in
        if negb (validateRead st1 source_addr (rv txn))
        then (false, st1, None)
        else
          read_rw remaining' (i + 1) source_start target_start st1
            (set_read_set txn ({[source_addr]} ∪ read_set txn))
  end.

(** [tm_read]: the result, the state, and the transaction if it is still
    allocated. *)
Definition tm_read (st : State) (txn : Transaction)
    (source size target : Z) : bool * State * option Transaction :=
  let num_words := Z.to_nat (size / align st) in
  if is_ro txn then read_ro num_words 0 source target st txn
  else read_rw num_words 0 source target st txn.

(** The loop of [tm_write]. *)
Fixpoint write_words (remaining : nat) (i : Z) (source_start target_start : Z)
    (st : State) (txn : Transaction) : Transaction :=
  match remaining with
  | O => txn
  | S remaining' =>
      let source_addr := source_start + sizeof_word * i in
      let target_addr := target_start + sizeof_word * i in
      let val := load st source_addr in
      write_words remaining' (i + 1) source_start target_start st
        (set_write_set txn
           (insert_or_assign target_addr (mkWriteOperation source_addr val)
                             (write_set txn)))
  end.

Definition tm_write (st : State) (txn : Transaction)
    (source size target : Z) : bool * State * option Transaction :=
  let num_words := Z.to_nat (size / align st) in
  (true, st, Some (write_words num_words 0 source target st txn)).

(** [tm_alloc]: [new_seg] is what [aligned_alloc] returned, [None] for a
    null pointer; [target] is the address the new segment is reported at.
    The call is modelled on a region whose [list_lock] points to a lock. *)
Definition tm_alloc (st : State) (txn : Transaction) (size : Z) (target : Z)
    (new_seg : option Z) : Alloc * State * option Transaction :=
  match new_seg with
  | None => (nomem, st, Some txn)
  | Some seg =>
      match VersionedWriteLock.lock (list_lock st) with
      | (false, _) => (abort, st, Some txn)
      | (true, w) =>
          let st1 := push_back_seg (set_list_lock st w) seg in
          let st2 := set_list_lock st1 (unlock (list_lock st1)) in
          let st3 := memset_zero st2 seg size in
          (success, store st3 target seg, Some txn)
      end
  end.

(** [tm_free]. *)
Definition tm_free (st : State) (txn : Transaction) (target : Z)
    : bool * State * option Transaction :=
  (false, st, Some txn).

End TransactionManager.


(** ** [tm_end] for any release of the held locks *)



Section TransactionEnd.

Variable NUM_LOCKS : Z.
Variable validateRead : State -> Z -> Z -> bool.

(** [freeHeldLocks(locks_held)] of helpers.hpp. *)
Variable freeHeldLocks : list Z -> State -> State.

(** [tm_end] as above, with the helper that releases the locks as a
    parameter: [tm_end_run] is [tm_end_run_with] at [Helpers.freeHeldLocks]. *)
Definition tm_end_run_with (st : State) (txn : Transaction)
    : exit * State * option Transaction :=
  match lock_write_set NUM_LOCKS (write_set txn) st [] with
  | (false, st1, locks_held) =>
      (LockFailed, freeHeldLocks locks_held st1, Some txn)
  | (true, st1, locks_held) =>
      let wv := gvc st1 in
      let st2 := set_gvc st1 (wrap (wv + 1)) in
      if forallb (fun read => validateRead st2 read (wrap (wv + 1)))
                 (elements (read_set txn))
      then
        let st3 := commit_writes NUM_LOCKS (write_set txn) wv st2 in
        (Committed, freeHeldLocks locks_held st3, None)
      else (ValidationFailed, freeHeldLocks locks_held st2, Some txn)
  end.


End TransactionEnd.

(** ** A region and transactions to run the calls on *)

Module Scenario.

Definition NUM_LOCKS : Z := 1024.

Definition validateRead : State -> Z -> Z -> bool :=
  Helpers.validateRead NUM_LOCKS.

(** Private memory of the caller: three words at 65536. *)
Definition private : gmap Z Z :=
  <[65536 := 170]> (<[65544 := 17]> (<[65552 := 34]> ∅)).

(** A region of 2048 bytes at 4096, aligned on 8, with the clock at 5 and
    every lock as constructed. *)
Definition st0 : State := mkState 5 private 2048 8 4096 ∅ 0 [].

(** The words at 4096 and 4104 are on stripes 0 and 8; the word at 5120 is
    on stripe 0 again. *)
Definition a : Z := 4096.
Definition b : Z := 4104.
Definition a' : Z := 5120.

(** A read-write transaction begun on [st0]. *)
Definition t0 : Transaction := mkTransaction 5 ∅ [] false.

(** [t0] after writing the word at 65536 to [a]. *)
Definition t_a : Transaction :=
  mkTransaction 5 ∅ [(a, mkWriteOperation 65536 170)] false.

(** [t0] after writing to [a] and then to [b]. *)
Definition t_ab : Transaction :=
  mkTransaction 5 ∅ [(a, mkWriteOperation 65536 170);
                     (b, mkWriteOperation 65544 17)] false.

(** [t0] after writing to [a] and then to [a'], on the stripe of [a]. *)
Definition t_aa' : Transaction :=
  mkTransaction 5 ∅ [(a, mkWriteOperation 65536 170);
                     (a', mkWriteOperation 65544 17)] false.

(** [st0] with the lock of the stripe of [b] held by another thread. *)
Definition st_b_locked : State := set_lock st0 (stripe NUM_LOCKS b) 1.

(** [st0] with the clock at [2 ^ 31]. *)
Definition st_late : State := set_gvc st0 (2 ^ 31).

(** [st0] after [t_a] has committed: the clock at 6, the word at [a]
    stored, the lock of stripe 0 free at version 6. *)
Definition st_a_committed : State :=
  mkState 6 (<[a := 170]> private) 2048 8 4096 (<[0 := 12]> ∅) 0 [].

(** [t0] after reading [b] and writing to [a]. *)
Definition t_a_read_b : Transaction :=
  mkTransaction 5 {[b]} [(a, mkWriteOperation 65536 170)] false.

(** [st_b_locked] after [t_a_read_b] has failed to commit: the lock of
    stripe 0 was taken and released by [unlock], the clock was incremented,
    the lock of stripe 8 is still held by the other thread. *)
Definition st_b_released : State :=
  mkState 6 private 2048 8 4096 (<[0 := 2]> (<[8 := 1]> ∅)) 0 [].


(** A region aligned on 16, and four private words at 65536. *)
Definition st16 : State :=
  mkState 5 (<[65560 := 51]> private) 2048 16 4096 ∅ 0 [].

End Scenario.

(** * Properties *)

(** ** The versioned write lock, bit by bit *)

Lemma isLocked_odd (w : Z) : isLocked w = Z.odd w.
Proof.
  unfold isLocked.
  change 1 with (Z.ones 1) at 1.
  rewrite Z.land_ones by lia.
  change (2 ^ 1) with 2.
  rewrite Zodd_mod.
  destruct (Z.eqb_spec (w mod 2) 0) as [E | E]; rewrite E || idtac; [reflexivity |].
  assert (H : w mod 2 = 1) by (pose proof (Z.mod_pos_bound w 2); lia).
  rewrite H. reflexivity.
Qed.

Lemma odd_land_not_1 (w : Z) : Z.odd (Z.land w not_1) = false.
Proof.
  rewrite <- Z.bit0_odd, Z.land_spec.
  replace (Z.testbit not_1 0) with false by reflexivity.
  apply andb_false_r.
Qed.

Lemma odd_lor_1 (w : Z) : Z.odd (Z.lor w 1) = true.
Proof.
  rewrite <- Z.bit0_odd, Z.lor_spec.
  replace (Z.testbit 1 0) with true by reflexivity.
  apply orb_true_r.
Qed.

Lemma odd_wrap (x : Z) : Z.odd (wrap x) = Z.odd x.
Proof.
  unfold wrap. rewrite <- !Z.bit0_odd.
  apply Z.mod_pow2_bits_low. lia.
Qed.

Lemma lock_spec (w : Z) :
  lock w = if Z.odd w || negb (w =? Z.land w not_1)
           then (false, w) else (true, Z.lor w 1).
Proof.
  unfold lock, compare_exchange.
  destruct (Z.eqb_spec w (Z.land w not_1)) as [E | E].
  - pose proof (odd_land_not_1 w) as H. rewrite <- E in H.
    rewrite H. simpl. rewrite <- E. reflexivity.
  - rewrite orb_true_r. reflexivity.
Qed.

Lemma lock_locked_fails (w : Z) : isLocked w = true -> lock w = (false, w).
Proof.
  intros H. rewrite isLocked_odd in H. rewrite lock_spec, H. reflexivity.
Qed.

Lemma lock_success (w w' : Z) :
  lock w = (true, w') -> isLocked w = false /\ w' = Z.lor w 1.
Proof.
  rewrite lock_spec, isLocked_odd.
  destruct (Z.odd w); simpl; [discriminate |].
  destruct (negb _); [discriminate |].
  intros [= <-]. auto.
Qed.

Lemma lock_failure (w w' : Z) : lock w = (false, w') -> w' = w.
Proof.
  rewrite lock_spec. destruct (_ || _); congruence.
Qed.

Lemma isLocked_lor_1 (w : Z) : isLocked (Z.lor w 1) = true.
Proof. rewrite isLocked_odd. apply odd_lor_1. Qed.

Lemma land_not_1u (w : Z) : Z.land w not_1u = 2 * ((w mod 2 ^ 32) / 2).
Proof.
  apply Z.bits_inj'. intros n Hn.
  rewrite Z.land_spec.
  destruct (Z.eq_dec n 0) as [-> | Hn0].
  - rewrite Z.testbit_even_0. rewrite andb_false_r. reflexivity.
  - replace n with (Z.succ (n - 1)) at 3 by lia.
    rewrite Z.testbit_even_succ by lia.
    rewrite <- Z.shiftr_div_pow2 with (n := 1) by lia.
    rewrite Z.shiftr_spec by lia.
    replace (n - 1 + 1) with n by lia.
    unfold not_1u.
    replace (2 ^ 32 - 2) with (Z.shiftl (Z.ones 31) 1) by reflexivity.
    rewrite Z.shiftl_spec by lia.
    destruct (Z_lt_dec n 32) as [Hlt | Hge].
    + rewrite Z.ones_spec_low by lia.
      rewrite Z.mod_pow2_bits_low by lia. apply andb_true_r.
    + rewrite Z.ones_spec_high by lia.
      rewrite Z.mod_pow2_bits_high by lia. apply andb_false_r.
Qed.

Lemma isLocked_unlock (w : Z) : isLocked (unlock w) = false.
Proof.
  unfold unlock. rewrite isLocked_odd, odd_wrap, land_not_1u.
  rewrite Z.odd_add, Z.odd_mul. reflexivity.
Qed.

Lemma getVersion_div (w : Z) : getVersion w = w / 2.
Proof. unfold getVersion. rewrite Z.shiftr_div_pow2 by lia. reflexivity. Qed.

Lemma getVersion_unlock (w : Z) :
  0 <= w < 2 ^ 32 -> getVersion (unlock w) = getVersion w + 1.
Proof.
  intros Hw. unfold unlock. rewrite !getVersion_div, land_not_1u.
  rewrite (Z.mod_small w) by lia.
  unfold wrap. rewrite Z.mod_small.
  - replace (2 * (w / 2) + 2) with ((w / 2 + 1) * 2) by lia.
    apply Z.div_mul. lia.
  - assert (0 <= w / 2 < 2 ^ 31) by (split; [apply Z.div_pos; lia | apply Z.div_lt_upper_bound; lia]).
    lia.
Qed.

Lemma setVersion_small (v : Z) : 0 <= v < 2 ^ 63 -> setVersion v = 2 * v + 1.
Proof.
  intros Hv. unfold setVersion.
  rewrite Z.shiftl_mul_pow2 by lia. change (2 ^ 1) with 2.
  unfold wrap. rewrite Z.mod_small by lia.
  replace (v * 2) with (2 * v) by lia.
  apply Z.bits_inj'. intros n Hn.
  rewrite Z.lor_spec.
  destruct (Z.eq_dec n 0) as [-> | Hn0].
  - rewrite Z.testbit_even_0, Z.testbit_odd_0. reflexivity.
  - replace n with (Z.succ (n - 1)) by lia.
    rewrite Z.testbit_even_succ, Z.testbit_odd_succ by lia.
    replace (Z.testbit 1 (Z.succ (n - 1))) with false; [apply orb_false_r |].
    symmetry. apply Z.bits_above_log2; simpl; lia.
Qed.

Lemma getVersion_setVersion (v : Z) :
  0 <= v < 2 ^ 63 -> getVersion (setVersion v) = v.
Proof.
  intros Hv. rewrite setVersion_small, getVersion_div by lia.
  symmetry. apply Z.div_unique with (r := 1); lia.
Qed.

Lemma getVersion_lor_1 (w : Z) : getVersion (Z.lor w 1) = getVersion w.
Proof.
  unfold getVersion. rewrite Z.shiftr_lor.
  replace (Z.shiftr 1 1) with 0 by reflexivity.
  apply Z.lor_0_r.
Qed.

Lemma getVersion_lock (w : Z) : getVersion (snd (lock w)) = getVersion w.
Proof.
  rewrite lock_spec. destruct (_ || _); simpl; [reflexivity |].
  apply getVersion_lor_1.
Qed.

(** ** Frame lemmas for the state *)

Lemma lock_at_set_lock (st : State) (i w j : Z) :
  lock_at (set_lock st i w) j = if decide (i = j) then w else lock_at st j.
Proof.
  unfold lock_at, set_lock; simpl. rewrite lookup_insert.
  case_decide; reflexivity.
Qed.

Lemma load_store (st : State) (a v b : Z) :
  load (store st a v) b = if decide (a = b) then v else load st b.
Proof.
  unfold load, store; simpl. rewrite lookup_insert.
  case_decide; reflexivity.
Qed.

Lemma freeHeldLocks_cons (i : Z) (l : list Z) (st : State) :
  freeHeldLocks (i :: l) st
  = freeHeldLocks l (set_lock st i (unlock (lock_at st i))).
Proof. reflexivity. Qed.

Lemma freeHeldLocks_frame (l : list Z) (st : State) :
  gvc (freeHeldLocks l st) = gvc st
  /\ memory (freeHeldLocks l st) = memory st
  /\ seg_list (freeHeldLocks l st) = seg_list st
  /\ list_lock (freeHeldLocks l st) = list_lock st.
Proof.
  revert st. induction l as [| i l IH]; intros st; [auto |].
  rewrite freeHeldLocks_cons.
  destruct (IH (set_lock st i (unlock (lock_at st i)))) as (-> & -> & -> & ->).
  auto.
Qed.

Lemma lock_at_freeHeldLocks (l : list Z) (st : State) (i : Z) :
  NoDup l ->
  lock_at (freeHeldLocks l st) i
  = if decide (i ∈ l) then unlock (lock_at st i) else lock_at st i.
Proof.
  intros Hnd. revert st. induction Hnd as [| j l Hj Hnd IH]; intros st.
  - rewrite decide_False by apply not_elem_of_nil. reflexivity.
  - rewrite freeHeldLocks_cons, IH.
    rewrite !lock_at_set_lock.
    destruct (decide (j = i)) as [-> | Hne].
    + rewrite decide_False by exact Hj.
      rewrite decide_True by set_solver. reflexivity.
    + destruct (decide (i ∈ l)) as [Hil | Hil].
      * rewrite decide_True by set_solver. reflexivity.
      * rewrite decide_False by set_solver. reflexivity.
Qed.

Section CommitProtocol.

Variable NUM_LOCKS : Z.
Variable validateRead : State -> Z -> Z -> bool.

Local Abbreviation stripe := (stripe NUM_LOCKS).
Local Abbreviation lock_write_set := (lock_write_set NUM_LOCKS).
Local Abbreviation commit_writes := (commit_writes NUM_LOCKS).
Local Abbreviation tm_end_run := (tm_end_run NUM_LOCKS validateRead).
Local Abbreviation tm_end := (tm_end NUM_LOCKS validateRead).

(** What phase (3) leaves: the locks taken are those of the entries
    visited, each was free and is now held with its version kept, and
    nothing else moved. *)
Lemma lock_write_set_inv (ws : list (Z * WriteOperation)) :
  forall (st : State) (held : list Z) (b : bool) (st' : State)
         (held' : list Z),
    lock_write_set ws st held = (b, st', held') ->
    (forall i, i ∈ held -> isLocked (lock_at st i) = true) ->
    NoDup held ->
    gvc st' = gvc st /\ memory st' = memory st
    /\ seg_list st' = seg_list st /\ list_lock st' = list_lock st
    /\ NoDup held'
    /\ (forall i, i ∈ held -> i ∈ held')
    /\ (forall i, i ∈ held' -> isLocked (lock_at st' i) = true)
    /\ (forall i, i ∈ held' -> i ∉ held ->
          isLocked (lock_at st i) = false
          /\ lock_at st' i = Z.lor (lock_at st i) 1)
    /\ (forall i, i ∉ held' \/ i ∈ held -> lock_at st' i = lock_at st i)
    /\ (b = true -> held' = held ++ map (fun kv => stripe (fst kv)) ws).
Proof.
  induction ws as [| kv ws IH]; intros st held b st' held' Hrun Hheld Hnd.
  - simpl in Hrun. injection Hrun as <- <- <-.
    split_and!; try done.
    intros _. rewrite app_nil_r. reflexivity.
  - simpl in Hrun.
    destruct (lock (lock_at st (stripe (fst kv)))) as [[|] w] eqn:Hlock.
    + apply lock_success in Hlock as [Hfree ->].
      assert (Hfresh : stripe (fst kv) ∉ held).
      { intros Hin. apply Hheld in Hin. congruence. }
      apply IH in Hrun as
        (Hg & Hm & Hs & Hl & Hnd' & Hsub & Hlk & Hnew & Hold & Hall).
      * split_and!; try done.
        -- intros i Hi. apply Hsub. set_solver.
        -- intros i Hi Hni.
           destruct (decide (stripe (fst kv) = i)) as [<- | Hne].
           ++ split; [exact Hfree |].
              rewrite Hold by (right; set_solver).
              rewrite lock_at_set_lock, decide_True by reflexivity.
              reflexivity.
           ++ destruct (Hnew i Hi) as [H1 H2]; [set_solver |].
              rewrite lock_at_set_lock, decide_False in H1, H2 by exact Hne.
              auto.
        -- intros i [Hi | Hi].
           ++ rewrite Hold by (left; exact Hi).
              rewrite lock_at_set_lock, decide_False; [reflexivity |].
              intros <-. apply Hi. apply Hsub. set_solver.
           ++ rewrite Hold by (right; set_solver).
              rewrite lock_at_set_lock, decide_False; [reflexivity |].
              intros <-. contradiction.
        -- intros Hb. rewrite (Hall Hb). simpl.
           rewrite <- app_assoc. reflexivity.
      * intros i Hi. rewrite lock_at_set_lock.
        case_decide; [apply isLocked_lor_1 |].
        apply Hheld. set_solver.
      * apply NoDup_app. split_and!; [done | set_solver | apply NoDup_singleton].
    + injection Hrun as <- <- <-.
      split_and!; try done.
  Qed.

Lemma commit_writes_cons (kv : Z * WriteOperation)
    (ws : list (Z * WriteOperation)) (wv : Z) (st : State) :
  commit_writes (kv :: ws) wv st
  = commit_writes ws wv
      (set_lock (store st (fst kv) (val (snd kv))) (stripe (fst kv))
                (setVersion wv)).
Proof. reflexivity. Qed.

Lemma commit_writes_frame (ws : list (Z * WriteOperation)) (wv : Z) :
  forall st : State,
    gvc (commit_writes ws wv st) = gvc st
    /\ seg_list (commit_writes ws wv st) = seg_list st
    /\ list_lock (commit_writes ws wv st) = list_lock st.
Proof.
  induction ws as [| kv ws IH]; intros st; [auto |].
  rewrite commit_writes_cons.
  destruct (IH (set_lock (store st (fst kv) (val (snd kv)))
                         (stripe (fst kv)) (setVersion wv)))
    as (-> & -> & ->).
  auto.
Qed.

Lemma find_None (addr : Z) (ws : list (Z * WriteOperation)) :
  addr ∉ map fst ws -> find addr ws = None.
Proof.
  induction ws as [| [k w] ws IH]; intros Hni; [reflexivity |].
  simpl in *. rewrite decide_False by set_solver.
  apply IH. set_solver.
Qed.

Lemma find_Some_elem (addr : Z) (w : WriteOperation)
    (ws : list (Z * WriteOperation)) :
  find addr ws = Some w -> (addr, w) ∈ ws.
Proof.
  induction ws as [| [k w'] ws IH]; [discriminate |].
  simpl. case_decide as Hk.
  - intros [= ->]. subst. set_solver.
  - intros H. apply IH in H. set_solver.
Qed.

(** Phase (6) stores, for every address of the write set, the value the
    write set holds for it, and no other word. *)
Lemma load_commit_writes (ws : list (Z * WriteOperation)) (wv : Z) :
  forall (st : State) (addr : Z),
    NoDup (map fst ws) ->
    load (commit_writes ws wv st) addr
    = match find addr ws with
      | Some w => val w
      | None => load st addr
      end.
Proof.
  induction ws as [| [k w] ws IH]; intros st addr Hnd; [reflexivity |].
  rewrite commit_writes_cons. simpl in *.
  apply NoDup_cons in Hnd as [Hk Hnd].
  rewrite IH by exact Hnd.
  case_decide as Hka.
  - subst k. rewrite find_None by exact Hk.
    unfold load, set_lock, store; simpl.
    rewrite lookup_insert_eq. reflexivity.
  - destruct (find addr ws); [reflexivity |].
    unfold load, set_lock, store; simpl.
    rewrite lookup_insert_ne by exact Hka. reflexivity.
Qed.

Lemma lock_at_commit_writes (ws : list (Z * WriteOperation)) (wv : Z) :
  forall (st : State) (i : Z),
    lock_at (commit_writes ws wv st) i
    = if decide (i ∈ map (fun kv => stripe (fst kv)) ws)
      then setVersion wv else lock_at st i.
Proof.
  induction ws as [| kv ws IH]; intros st i.
  - rewrite decide_False by apply not_elem_of_nil. reflexivity.
  - rewrite commit_writes_cons, IH. simpl.
    destruct (decide (i ∈ map (fun kv => stripe (fst kv)) ws)) as [Hi | Hi].
    + rewrite decide_True by set_solver. reflexivity.
    + rewrite lock_at_set_lock.
      change (lock_at (store st (fst kv) (val (snd kv))) i)
        with (lock_at st i).
      destruct (decide (stripe (fst kv) = i)) as [He | Hne].
      * rewrite decide_True by set_solver. reflexivity.
      * rewrite decide_False by set_solver. reflexivity.
Qed.

(** The three ways out of [tm_end], with the state each one leaves. *)
Lemma tm_end_run_cases (st : State) (txn : Transaction) :
  exists (b : bool) (st1 : State) (held : list Z),
    lock_write_set (write_set txn) st [] = (b, st1, held)
    /\ ((b = false
         /\ tm_end_run st txn
            = (LockFailed, freeHeldLocks held st1, Some txn))
        \/ (b = true
            /\ tm_end_run st txn
               = (ValidationFailed,
                  freeHeldLocks held (set_gvc st1 (wrap (gvc st1 + 1))),
                  Some txn))
        \/ (b = true
            /\ tm_end_run st txn
               = (Committed,
                  freeHeldLocks held
                    (commit_writes (write_set txn) (gvc st1)
                       (set_gvc st1 (wrap (gvc st1 + 1)))),
                  None))).
Proof.
  unfold tm_end_run.
  destruct (lock_write_set (write_set txn) st []) as [[b st1] held].
  exists b, st1, held. split; [reflexivity |].
  destruct b; [| left; auto].
  right. destruct (forallb _ _); [right | left]; auto.
Qed.

Lemma NoDup_map_eq {A B : Type} (f : A -> B) (l : list A) (x y : A) :
  NoDup (map f l) -> x ∈ l -> y ∈ l -> f x = f y -> x = y.
Proof.
  induction l as [| z l IH]; simpl; intros Hnd Hx Hy Hf.
  - inversion Hx.
  - apply NoDup_cons in Hnd as [Hz Hnd].
    apply elem_of_cons in Hx as [-> | Hx];
      apply elem_of_cons in Hy as [-> | Hy]; auto.
    + exfalso. apply Hz. rewrite Hf.
      apply list_elem_of_In, in_map, list_elem_of_In, Hy.
    + exfalso. apply Hz. rewrite <- Hf.
      apply list_elem_of_In, in_map, list_elem_of_In, Hx.
Qed.

(** Phase (3) started with no lock held. *)
Lemma lock_write_set_start (st : State) (txn : Transaction) (b : bool)
    (st1 : State) (held : list Z) :
  lock_write_set (write_set txn) st [] = (b, st1, held) ->
  gvc st1 = gvc st /\ memory st1 = memory st
  /\ NoDup held
  /\ (forall i, i ∈ held ->
        isLocked (lock_at st i) = false
        /\ lock_at st1 i = Z.lor (lock_at st i) 1)
  /\ (forall i, i ∉ held -> lock_at st1 i = lock_at st i)
  /\ (b = true -> held = map (fun kv => stripe (fst kv)) (write_set txn)).
Proof.
  intros Hrun.
  apply lock_write_set_inv in Hrun as
    (Hg & Hm & _ & _ & Hnd & _ & _ & Hnew & Hold & Hall).
  - split_and!; try done.
    + intros i Hi. apply Hnew; [exact Hi | apply not_elem_of_nil].
    + intros i Hi. apply Hold. left. exact Hi.
  - intros i Hi. inversion Hi.
  - apply NoDup_nil_2.
Qed.

(** C1 (the code as it is). When [tm_end] has taken every lock, passed the
    validation and stored the write set, it returns [false]: the value
    the two aborting exits return as well. *)
Theorem tm_end_commit_returns_false (st : State) (txn : Transaction)
    (st' : State) (txn' : option Transaction) :
  tm_end_run st txn = (Committed, st', txn') ->
  tm_end st txn = (false, st', txn').
Proof.
  intros H. unfold tm_end. rewrite H. reflexivity.
Qed.

Lemma tm_end_returns_false (st : State) (txn : Transaction) :
  fst (fst (tm_end st txn)) = false.
Proof.
  unfold tm_end. destruct (tm_end_run st txn) as [[[ | | ] st'] txn'];
    reflexivity.
Qed.

(** C6 (the code as it is). A write set with two addresses on one stripe
    never reaches the stores: the second [lock()] on that stripe finds the
    lock bit the first one set, and [tm_end] leaves through the exit
    of phase (3) with the memory untouched. *)
Theorem tm_end_same_stripe_fails (st : State) (txn : Transaction)
    (a b : Z) (wa wb : WriteOperation) :
  (a, wa) ∈ write_set txn ->
  (b, wb) ∈ write_set txn ->
  a <> b ->
  stripe a = stripe b ->
  exists st',
    tm_end_run st txn = (LockFailed, st', Some txn)
    /\ tm_end st txn = (false, st', Some txn)
    /\ memory st' = memory st.
Proof.
  intros Ha Hb Hab Hs.
  destruct (tm_end_run_cases st txn) as (ok & st1 & held & Hlk & Hcases).
  apply lock_write_set_start in Hlk as (_ & Hm & Hnd & _ & _ & Hall).
  destruct ok.
  - exfalso. rewrite (Hall eq_refl) in Hnd.
    assert (Heq : (a, wa) = (b, wb)).
    { apply (NoDup_map_eq (fun kv => stripe (fst kv)) (write_set txn));
        assumption. }
    congruence.
  - destruct Hcases as [[_ H] | [[? _] | [? _]]]; try discriminate.
    eexists. split; [exact H |]. split.
    + unfold tm_end. rewrite H. reflexivity.
    + destruct (freeHeldLocks_frame held st1) as (_ & -> & _). exact Hm.
Qed.

Lemma load_same_memory (s1 s2 : State) (addr : Z) :
  memory s1 = memory s2 -> load s1 addr = load s2 addr.
Proof. unfold load. intros ->. reflexivity. Qed.

(** A commit stores the pending value of every address of the write set
    and leaves the other words alone. *)
Lemma tm_end_commit_stores (st : State) (txn : Transaction) (st' : State)
    (txn' : option Transaction) :
  tm_end_run st txn = (Committed, st', txn') ->
  NoDup (map fst (write_set txn)) ->
  forall addr,
    load st' addr
    = match find addr (write_set txn) with
      | Some w => val w
      | None => load st addr
      end.
Proof.
  intros Hrun Hnd addr.
  destruct (tm_end_run_cases st txn) as (b & st1 & held & Hlk & Hcases).
  apply lock_write_set_start in Hlk as (_ & Hm & _).
  destruct Hcases as [[_ H] | [[_ H] | [_ H]]];
    rewrite H in Hrun; try discriminate.
  injection Hrun as <- <-.
  rewrite (load_same_memory _ (commit_writes (write_set txn) (gvc st1)
                                 (set_gvc st1 (wrap (gvc st1 + 1)))))
    by apply freeHeldLocks_frame.
  rewrite load_commit_writes by exact Hnd.
  destruct (find addr (write_set txn)); [reflexivity |].
  apply load_same_memory. exact Hm.
Qed.

(** X17. While the clock is below [2 ^ 31], a commit leaves the clock one
    higher and every stripe it wrote free, at the new value of the clock. *)
Lemma tm_end_commit_versions (st : State) (txn : Transaction) (st' : State)
    (txn' : option Transaction) :
  tm_end_run st txn = (Committed, st', txn') ->
  0 <= gvc st < 2 ^ 31 ->
  gvc st' = gvc st + 1
  /\ forall addr w,
       (addr, w) ∈ write_set txn ->
       getVersion (lock_at st' (stripe addr)) = gvc st + 1
       /\ isLocked (lock_at st' (stripe addr)) = false.
Proof.
  intros Hrun Hclock.
  destruct (tm_end_run_cases st txn) as (b & st1 & held & Hlk & Hcases).
  apply lock_write_set_start in Hlk as (Hg & _ & Hnd & _ & _ & Hall).
  destruct Hcases as [[_ H] | [[_ H] | [Hb H]]];
    rewrite H in Hrun; try discriminate.
  injection Hrun as <- <-. rewrite Hg in *.
  split.
  - destruct (freeHeldLocks_frame held
                (commit_writes (write_set txn) (gvc st)
                   (set_gvc st1 (wrap (gvc st + 1))))) as (-> & _).
    destruct (commit_writes_frame (write_set txn) (gvc st)
                (set_gvc st1 (wrap (gvc st + 1)))) as (-> & _).
    simpl. unfold wrap. apply Z.mod_small. lia.
  - intros addr w Hin.
    assert (Hs : stripe addr ∈ held).
    { rewrite (Hall Hb).
      apply list_elem_of_In.
      apply (in_map (fun kv => stripe (fst kv)) _ (addr, w)).
      apply list_elem_of_In. exact Hin. }
    rewrite lock_at_freeHeldLocks by exact Hnd.
    rewrite decide_True by exact Hs.
    rewrite lock_at_commit_writes.
    rewrite decide_True by (rewrite <- (Hall Hb); exact Hs).
    split; [| apply isLocked_unlock].
    rewrite getVersion_unlock.
    + rewrite getVersion_setVersion by lia. reflexivity.
    + rewrite setVersion_small by lia. lia.
Qed.

(** [tm_end] never looks at [rv]: the exit it takes and the state it leaves
    are those of the same transaction with any other read version. *)
Lemma tm_end_run_ignores_rv (st : State) (txn : Transaction) (r : Z) :
  fst (tm_end_run st (mkTransaction r (read_set txn) (write_set txn)
                                    (is_ro txn)))
  = fst (tm_end_run st txn).
Proof.
  unfold tm_end_run. simpl.
  destruct (lock_write_set (write_set txn) st []) as [[[|] st1] held];
    [| reflexivity].
  destruct (forallb _ _); reflexivity.
Qed.

End CommitProtocol.

(** ** The write set *)

Lemma find_insert_or_assign (addr addr' : Z) (w : WriteOperation)
    (ws : list (Z * WriteOperation)) :
  find addr' (insert_or_assign addr w ws)
  = if decide (addr = addr') then Some w else find addr' ws.
Proof.
  induction ws as [| [k w'] ws IH]; simpl.
  - reflexivity.
  - destruct (decide (k = addr)) as [-> | Hk]; simpl.
    + destruct (decide (addr = addr')); reflexivity.
    + rewrite IH.
      destruct (decide (k = addr')) as [-> | Hk'];
        [rewrite decide_False by congruence |]; reflexivity.
Qed.

Lemma keys_insert_or_assign (addr : Z) (w : WriteOperation)
    (ws : list (Z * WriteOperation)) :
  map fst (insert_or_assign addr w ws)
  = if decide (addr ∈ map fst ws) then map fst ws else map fst ws ++ [addr].
Proof.
  induction ws as [| [k w'] ws IH].
  - rewrite decide_False by apply not_elem_of_nil. reflexivity.
  - cbn [insert_or_assign].
    destruct (decide (k = addr)) as [-> | Hk]; cbn [map fst].
    + rewrite decide_True by set_solver. reflexivity.
    + rewrite IH.
      destruct (decide (addr ∈ map fst ws)) as [Hin | Hin].
      * rewrite decide_True by set_solver. reflexivity.
      * rewrite decide_False by set_solver. reflexivity.
Qed.

Lemma NoDup_insert_or_assign (addr : Z) (w : WriteOperation)
    (ws : list (Z * WriteOperation)) :
  NoDup (map fst ws) -> NoDup (map fst (insert_or_assign addr w ws)).
Proof.
  intros Hnd. rewrite keys_insert_or_assign.
  case_decide as Hin; [exact Hnd |].
  apply NoDup_app. split_and!; [done | set_solver | apply NoDup_singleton].
Qed.

(** The loop of [tm_write] touches the write set only. *)
Lemma write_words_frame (n : nat) :
  forall (i source target : Z) (st : State) (txn : Transaction),
    rv (write_words n i source target st txn) = rv txn
    /\ read_set (write_words n i source target st txn) = read_set txn
    /\ is_ro (write_words n i source target st txn) = is_ro txn.
Proof.
  induction n as [| n IH]; intros i source target st txn; simpl; [auto |].
  destruct (IH (i + 1) source target st
              (set_write_set txn
                 (insert_or_assign (target + sizeof_word * i)
                    (mkWriteOperation (source + sizeof_word * i)
                                      (load st (source + sizeof_word * i)))
                    (write_set txn)))) as (-> & -> & ->).
  auto.
Qed.

Lemma write_words_NoDup (n : nat) :
  forall (i source target : Z) (st : State) (txn : Transaction),
    NoDup (map fst (write_set txn)) ->
    NoDup (map fst (write_set (write_words n i source target st txn))).
Proof.
  induction n as [| n IH]; intros i source target st txn Hnd; simpl;
    [exact Hnd |].
  apply IH. simpl. apply NoDup_insert_or_assign, Hnd.
Qed.

Lemma write_words_other (n : nat) :
  forall (i source target : Z) (st : State) (txn : Transaction) (addr : Z),
    (forall k, i <= k < i + Z.of_nat n -> addr <> target + sizeof_word * k) ->
    find addr (write_set (write_words n i source target st txn))
    = find addr (write_set txn).
Proof.
  induction n as [| n IH]; intros i source target st txn addr Hout; simpl;
    [reflexivity |].
  rewrite IH by (intros k Hk; apply Hout; lia).
  simpl. rewrite find_insert_or_assign.
  rewrite decide_False; [reflexivity |].
  intros Heq. apply (Hout i); [lia | congruence].
Qed.

Lemma write_words_written (n : nat) :
  forall (i source target : Z) (st : State) (txn : Transaction) (k : Z),
    i <= k < i + Z.of_nat n ->
    find (target + sizeof_word * k)
         (write_set (write_words n i source target st txn))
    = Some (mkWriteOperation (source + sizeof_word * k)
                             (load st (source + sizeof_word * k))).
Proof.
  induction n as [| n IH]; intros i source target st txn k Hk; simpl; [lia |].
  destruct (Z.eq_dec k i) as [-> | Hne].
  - rewrite write_words_other.
    + simpl. rewrite find_insert_or_assign, decide_True by reflexivity.
      reflexivity.
    + intros k Hk'. unfold sizeof_word. lia.
  - apply IH. lia.
Qed.

Section Speculation.

Variable NUM_LOCKS : Z.
Variable validateRead : State -> Z -> Z -> bool.

Local Abbreviation tm_end_run := (tm_end_run NUM_LOCKS validateRead).
Local Abbreviation tm_read := (tm_read validateRead).

(** [tm_write] returns [true] and leaves the state as it found it; its loop
    runs over [size / align] words at a stride of [sizeof(word)], and
    the write set then holds, for each word written, the value read from
    the source (whatever it held for that address before), and holds what
    it held for every other address; and a commit stores, for each
    address of the write set, the one value the write set holds for it:
    the last one written. *)
Lemma tm_write_buffers_last_value (st : State) (txn : Transaction)
    (source size target : Z) :
  NoDup (map fst (write_set txn)) ->
  exists txn',
    tm_write st txn source size target = (true, st, Some txn')
    /\ NoDup (map fst (write_set txn'))
    /\ (forall k, 0 <= k < size / align st ->
          find (target + sizeof_word * k) (write_set txn')
          = Some (mkWriteOperation (source + sizeof_word * k)
                                   (load st (source + sizeof_word * k))))
    /\ (forall addr,
          (forall k, 0 <= k < size / align st ->
                     addr <> target + sizeof_word * k) ->
          find addr (write_set txn') = find addr (write_set txn))
    /\ (forall st1 st2 txn2,
          tm_end_run st1 txn' = (Committed, st2, txn2) ->
          forall addr,
            load st2 addr
            = match find addr (write_set txn') with
              | Some w => val w
              | None => load st1 addr
              end).
Proof.
  intros Hnd. eexists. split; [reflexivity |].
  assert (Hnd' : NoDup (map fst (write_set
            (write_words (Z.to_nat (size / align st)) 0 source target st
                         txn)))) by apply write_words_NoDup, Hnd.
  split_and!.
  - exact Hnd'.
  - intros k Hk. apply write_words_written. lia.
  - intros addr Hout. apply write_words_other.
    intros k Hk. apply Hout. lia.
  - intros st1 st2 txn2 Hrun addr.
    apply (tm_end_commit_stores NUM_LOCKS validateRead st1 _ st2 txn2 Hrun
             Hnd').
Qed.

(** C5 (as amended). In a read-write transaction, reading one word whose
    address is in the write set validates the stripe before and after
    copying the pending value to the target; when both validations pass
    the call returns [true], the target holds the pending value and the
    address has joined the read set; otherwise it returns [false] and the
    transaction is deleted. *)
Theorem tm_read_own_write (st : State) (txn : Transaction)
    (source size target : Z) (w : WriteOperation) :
  is_ro txn = false ->
  size / align st = 1 ->
  find source (write_set txn) = Some w ->
  tm_read st txn source size target
  = (if validateRead st source (rv txn)
     then
       if validateRead (store st target (val w)) source (rv txn)
       then (true, store st target (val w),
             Some (set_read_set txn ({[source]} ∪ read_set txn)))
       else (false, store st target (val w), None)
     else (false, st, None))
  /\ load (store st target (val w)) target = val w
  /\ source ∈ read_set (set_read_set txn ({[source]} ∪ read_set txn)).
Proof.
  intros Hrw Hone Hfind. split_and!.
  - unfold tm_read. rewrite Hrw, Hone. simpl.
    replace (source + sizeof_word * 0) with source by (unfold sizeof_word; lia).
    replace (target + sizeof_word * 0) with target by (unfold sizeof_word; lia).
    rewrite Hfind.
    destruct (validateRead st source (rv txn)); simpl; [| reflexivity].
    destruct (validateRead (store st target (val w)) source (rv txn));
      reflexivity.
  - rewrite load_store, decide_True by reflexivity. reflexivity.
  - simpl. set_solver.
Qed.

Lemma read_ro_false (n : nat) :
  forall (i source target : Z) (st : State) (txn : Transaction)
         (st' : State) (txn' : option Transaction),
    read_ro validateRead n i source target st txn = (false, st', txn') ->
    txn' = None.
Proof.
  induction n as [| n IH]; intros i source target st txn st' txn' H;
    simpl in H; [discriminate |].
  destruct (negb _); [congruence |]. eapply IH, H.
Qed.

Lemma read_rw_false (n : nat) :
  forall (i source target : Z) (st : State) (txn : Transaction)
         (st' : State) (txn' : option Transaction),
    read_rw validateRead n i source target st txn = (false, st', txn') ->
    txn' = None.
Proof.
  induction n as [| n IH]; intros i source target st txn st' txn' H;
    simpl in H; [discriminate |].
  destruct (negb _); [congruence |].
  destruct (negb _); [congruence |]. eapply IH, H.
Qed.

(** A [tm_read] that returns [false] has deleted the transaction. *)
Lemma tm_read_false_deletes (st : State) (txn : Transaction)
    (source size target : Z) (st' : State) (txn' : option Transaction) :
  tm_read st txn source size target = (false, st', txn') -> txn' = None.
Proof.
  unfold tm_read. destruct (is_ro txn).
  - apply read_ro_false.
  - apply read_rw_false.
Qed.

End Speculation.

(** C10. [tm_free] returns [false] whatever the state, the transaction and
    the address, and leaves the state and the transaction as they were; in
    particular the segment a successful [tm_alloc] has just reported is
    still in [seg_list] after [tm_free] was called on it. *)
Theorem tm_free_returns_false (st : State) (txn : Transaction) (target : Z) :
  tm_free st txn target = (false, st, Some txn)
  /\ forall size out seg st' txn',
       tm_alloc st txn size out (Some seg) = (success, st', txn') ->
       seg ∈ seg_list st'
       /\ tm_free st' txn seg = (false, st', Some txn).
Proof.
  split; [reflexivity |].
  intros size out seg st' txn' Halloc. split; [| reflexivity].
  unfold tm_alloc in Halloc.
  destruct (lock (list_lock st)) as [[|] w]; [| discriminate].
  injection Halloc as <- _.
  assert (Hmem : forall n p s, seg_list (memset_zero s p n) = seg_list s).
  { intros n p s. unfold memset_zero.
    generalize (seq 0 (Z.to_nat (n / sizeof_word))). intros l. revert s.
    induction l as [| k l IH]; intros s; simpl; [reflexivity |].
    rewrite IH. reflexivity. }
  simpl. rewrite Hmem. simpl. set_solver.
Qed.

(** ** Histories of one lock *)

Lemma getVersion_setVersion_nonneg (v : Z) : 0 <= getVersion (setVersion v).
Proof.
  unfold getVersion, setVersion. apply Z.shiftr_nonneg.
  apply Z.lor_nonneg. split; [| lia].
  unfold wrap. apply Z.mod_pos_bound. lia.
Qed.

Lemma getVersion_step (w : Z) (o : op) :
  disciplined w [o] = true -> getVersion w <= getVersion (step w o).
Proof.
  destruct o as [| v |]; cbn [disciplined step]; rewrite ?andb_true_r.
  - intros _. rewrite getVersion_lock. lia.
  - intros H. apply andb_true_iff in H as [Hle Hlt].
    apply Z.leb_le in Hle. apply Z.ltb_lt in Hlt.
    destruct (Z_lt_dec v 0) as [Hneg | Hpos].
    + pose proof (getVersion_setVersion_nonneg v). lia.
    + rewrite getVersion_setVersion by lia. exact Hle.
  - intros H. apply andb_true_iff in H as [Hle Hlt].
    apply Z.leb_le in Hle. apply Z.ltb_lt in Hlt.
    rewrite getVersion_unlock by lia. lia.
Qed.

(** C7 (as amended). Over a history of [lock], [setVersion] and [unlock] in
    which every [setVersion v] is given a 63-bit [v] at least the version
    the lock has, and every [unlock] finds a word below [2 ^ 32], the
    version [getVersion] gives at the end is at least the one it gave at the
    start. *)
Theorem getVersion_monotone (w : Z) (ops : list op) :
  disciplined w ops = true -> getVersion w <= getVersion (run w ops).
Proof.
  revert w. induction ops as [| o ops IH]; intros w H.
  - simpl. lia.
  - cbn [disciplined] in H. apply andb_true_iff in H as [Ho Hrest].
    assert (Hstep : getVersion w <= getVersion (step w o)).
    { apply getVersion_step. cbn [disciplined]. rewrite Ho. reflexivity. }
    specialize (IH (step w o) Hrest).
    unfold run in *. simpl. lia.
Qed.

Lemma getVersion_monotone_witness :
  disciplined 10 [Lock; SetVersion 7; Unlock; Lock; Unlock] = true
  /\ getVersion 10
     <= getVersion (run 10 [Lock; SetVersion 7; Unlock; Lock; Unlock]).
Proof.
  split; [reflexivity |].
  apply (getVersion_monotone 10 [Lock; SetVersion 7; Unlock; Lock; Unlock]).
  reflexivity.
Defined.

(** C7 (as stated) fails: a lock at version 5 that is locked, given version
    0 and unlocked is at version 1. *)
Lemma setVersion_lowers_version :
  ~ (getVersion 10 <= getVersion (run 10 [Lock; SetVersion 0; Unlock])).
Proof. vm_compute. intros H. apply H. reflexivity. Qed.

(** [unlock] keeps the low 32 bits of the word only: a lock at version
    [2 ^ 31] that is locked and unlocked is at version 1. *)
Example unlock_truncates_version :
  getVersion (2 ^ 32) = 2 ^ 31
  /\ getVersion (run (2 ^ 32) [Lock; Unlock]) = 1.
Proof. split; reflexivity. Qed.

(** ** The calls on a concrete region *)

Lemma tm_end_commit_returns_false_witness :
  tm_end_run Scenario.NUM_LOCKS Scenario.validateRead Scenario.st0
             Scenario.t_a
  = (Committed, Scenario.st_a_committed, None)
  /\ tm_end Scenario.NUM_LOCKS Scenario.validateRead Scenario.st0 Scenario.t_a
     = (false, Scenario.st_a_committed, None).
Proof.
  assert (E : tm_end_run Scenario.NUM_LOCKS Scenario.validateRead Scenario.st0
                         Scenario.t_a
              = (Committed, Scenario.st_a_committed, None))
    by (vm_compute; reflexivity).
  split; [exact E |].
  apply (tm_end_commit_returns_false Scenario.NUM_LOCKS Scenario.validateRead
           Scenario.st0 Scenario.t_a Scenario.st_a_committed None E).
Defined.

(** C2 (the code as it is). With the clock at [2 ^ 31], a transaction that
    wrote [a] and [b] commits, the clock goes to [2 ^ 31 + 1], and both
    stripes are left at version 1: [unlock] masks the word with [~1u] and
    drops the upper 32 bits of what [setVersion] stored. *)
Theorem tm_end_commit_version_truncated
    (validateRead : State -> Z -> Z -> bool) :
  exists st',
    tm_end_run Scenario.NUM_LOCKS validateRead Scenario.st_late Scenario.t_ab
    = (Committed, st', None)
    /\ gvc st' = 2 ^ 31 + 1
    /\ getVersion (lock_at st' (stripe Scenario.NUM_LOCKS Scenario.a)) = 1
    /\ getVersion (lock_at st' (stripe Scenario.NUM_LOCKS Scenario.b)) = 1.
Proof.
  eexists. split; [vm_compute; reflexivity |].
  split; [vm_compute; reflexivity |].
  split; [vm_compute; reflexivity |].
  vm_compute; reflexivity.
Qed.

(** C3 (the code as it is). Phase (5) of [tm_end] is given one more than
    the clock it found and never the read version: whatever [validateRead]
    is, the exit taken and the state left are the same for every value of
    [rv].  So a transaction with read version 5 that reads [a], while another
    one commits a write to [a] and leaves the stripe of [a] at version 6,
    and that then writes [b] and ends, is validated against the bound 7 and
    commits its write. *)
Theorem tm_end_commits_stale_read :
  (forall NUM_LOCKS validateRead st txn r,
     fst (tm_end_run NUM_LOCKS validateRead st
            (mkTransaction r (read_set txn) (write_set txn) (is_ro txn)))
     = fst (tm_end_run NUM_LOCKS validateRead st txn))
  /\ exists st1 t1 st2 t1' st3,
       tm_read Scenario.validateRead Scenario.st0 Scenario.t0 Scenario.a 8
               65560 = (true, st1, Some t1)
       /\ tm_end_run Scenario.NUM_LOCKS Scenario.validateRead st1 Scenario.t_a
          = (Committed, st2, None)
       /\ getVersion (lock_at st2 (stripe Scenario.NUM_LOCKS Scenario.a)) = 6
       /\ tm_write st2 t1 65544 8 Scenario.b = (true, st2, Some t1')
       /\ rv t1' = 5
       /\ Scenario.a ∈ read_set t1'
       /\ tm_end_run Scenario.NUM_LOCKS Scenario.validateRead st2 t1'
          = (Committed, st3, None)
       /\ load st3 Scenario.b = 17.
Proof.
  split; [intros; apply tm_end_run_ignores_rv |].
  do 5 eexists.
  split; [vm_compute; reflexivity |].
  split; [vm_compute; reflexivity |].
  split; [vm_compute; reflexivity |].
  split; [vm_compute; reflexivity |].
  split; [vm_compute; reflexivity |].
  split; [vm_compute; reflexivity |].
  split; [vm_compute; reflexivity |].
  vm_compute; reflexivity.
Qed.

(** C5 (as stated) fails: reading [a] in a transaction that has written [a]
    succeeds and leaves [a] in the read set. *)
Lemma tm_read_own_write_joins_read_set :
  ~ (forall st' txn',
       tm_read Scenario.validateRead Scenario.st0 Scenario.t_a Scenario.a 8
               65560 = (true, st', Some txn') ->
       Scenario.a ∉ read_set txn').
Proof.
  intros H.
  apply (H (store Scenario.st0 65560 170)
           (set_read_set Scenario.t_a ({[Scenario.a]} ∪ ∅))).
  - vm_compute. reflexivity.
  - simpl. set_solver.
Qed.

Lemma tm_read_own_write_witness :
  is_ro Scenario.t_a = false
  /\ 8 / align Scenario.st0 = 1
  /\ find Scenario.a (write_set Scenario.t_a)
     = Some (mkWriteOperation 65536 170)
  /\ tm_read Scenario.validateRead Scenario.st0 Scenario.t_a Scenario.a 8
             65560
     = (true, store Scenario.st0 65560 170,
        Some (set_read_set Scenario.t_a
                ({[Scenario.a]} ∪ read_set Scenario.t_a)))
  /\ load (store Scenario.st0 65560 170) 65560 = 170
  /\ Scenario.a ∈ read_set (set_read_set Scenario.t_a
                              ({[Scenario.a]} ∪ read_set Scenario.t_a)).
Proof.
  split; [reflexivity |]. split; [reflexivity |]. split; [reflexivity |].
  exact (tm_read_own_write Scenario.validateRead Scenario.st0 Scenario.t_a
           Scenario.a 8 65560 (mkWriteOperation 65536 170)
           eq_refl eq_refl eq_refl).
Defined.

Lemma tm_end_same_stripe_fails_witness :
  (Scenario.a, mkWriteOperation 65536 170) ∈ write_set Scenario.t_aa'
  /\ (Scenario.a', mkWriteOperation 65544 17) ∈ write_set Scenario.t_aa'
  /\ Scenario.a <> Scenario.a'
  /\ stripe Scenario.NUM_LOCKS Scenario.a
     = stripe Scenario.NUM_LOCKS Scenario.a'
  /\ exists st',
       tm_end_run Scenario.NUM_LOCKS Scenario.validateRead Scenario.st0
                  Scenario.t_aa' = (LockFailed, st', Some Scenario.t_aa')
       /\ tm_end Scenario.NUM_LOCKS Scenario.validateRead Scenario.st0
                 Scenario.t_aa' = (false, st', Some Scenario.t_aa')
       /\ memory st' = memory Scenario.st0.
Proof.
  assert (Ha : (Scenario.a, mkWriteOperation 65536 170)
               ∈ write_set Scenario.t_aa') by (simpl; set_solver).
  assert (Ha' : (Scenario.a', mkWriteOperation 65544 17)
                ∈ write_set Scenario.t_aa') by (simpl; set_solver).
  assert (Hne : Scenario.a <> Scenario.a') by discriminate.
  assert (Hs : stripe Scenario.NUM_LOCKS Scenario.a
               = stripe Scenario.NUM_LOCKS Scenario.a') by reflexivity.
  split; [exact Ha |]. split; [exact Ha' |]. split; [exact Hne |].
  split; [exact Hs |].
  exact (tm_end_same_stripe_fails Scenario.NUM_LOCKS Scenario.validateRead
           Scenario.st0 Scenario.t_aa' Scenario.a Scenario.a' _ _
           Ha Ha' Hne Hs).
Defined.

(** Writing 170 and then 17 to [a] and committing stores 17. *)
Example write_twice_commits_last :
  exists t1 t2 st',
    tm_write Scenario.st0 Scenario.t0 65536 8 Scenario.a
    = (true, Scenario.st0, Some t1)
    /\ tm_write Scenario.st0 t1 65544 8 Scenario.a
       = (true, Scenario.st0, Some t2)
    /\ tm_end_run Scenario.NUM_LOCKS Scenario.validateRead Scenario.st0 t2
       = (Committed, st', None)
    /\ load st' Scenario.a = 17.
Proof.
  do 3 eexists.
  split; [vm_compute; reflexivity |].
  split; [vm_compute; reflexivity |].
  split; [vm_compute; reflexivity |].
  vm_compute; reflexivity.
Qed.

Lemma tm_free_returns_false_witness :
  exists st',
    tm_alloc Scenario.st0 Scenario.t0 64 65560 (Some 8192)
    = (success, st', Some Scenario.t0)
    /\ 8192 ∈ seg_list st'
    /\ tm_free st' Scenario.t0 8192 = (false, st', Some Scenario.t0).
Proof.
  eexists.
  assert (E : tm_alloc Scenario.st0 Scenario.t0 64 65560 (Some 8192)
              = (success, _, Some Scenario.t0)) by (vm_compute; reflexivity).
  split; [exact E |].
  exact (proj2 (tm_free_returns_false Scenario.st0 Scenario.t0 0)
               64 65560 8192 _ _ E).
Defined.

(** * Further properties of the code *)

(** ** data-structures.cpp: one lock word *)

Lemma lor_double_1 (q : Z) : Z.lor (2 * q) 1 = 2 * q + 1.
Proof.
  apply Z.bits_inj'. intros n Hn.
  rewrite Z.lor_spec.
  destruct (Z.eq_dec n 0) as [-> | Hn0].
  - rewrite Z.testbit_even_0, Z.testbit_odd_0. reflexivity.
  - replace n with (Z.succ (n - 1)) by lia.
    rewrite Z.testbit_even_succ, Z.testbit_odd_succ by lia.
    replace (Z.testbit 1 (Z.succ (n - 1))) with false; [apply orb_false_r |].
    symmetry. apply Z.bits_above_log2; simpl; lia.
Qed.

Lemma land_not_1 (w : Z) : Z.land w not_1 = 2 * ((w mod 2 ^ 64) / 2).
Proof.
  apply Z.bits_inj'. intros n Hn.
  rewrite Z.land_spec.
  destruct (Z.eq_dec n 0) as [-> | Hn0].
  - rewrite Z.testbit_even_0. rewrite andb_false_r. reflexivity.
  - replace n with (Z.succ (n - 1)) at 3 by lia.
    rewrite Z.testbit_even_succ by lia.
    rewrite <- Z.shiftr_div_pow2 with (n := 1) by lia.
    rewrite Z.shiftr_spec by lia.
    replace (n - 1 + 1) with n by lia.
    unfold not_1.
    replace (2 ^ 64 - 2) with (Z.shiftl (Z.ones 63) 1) by reflexivity.
    rewrite Z.shiftl_spec by lia.
    destruct (Z_lt_dec n 64) as [Hlt | Hge].
    + rewrite Z.ones_spec_low by lia.
      rewrite Z.mod_pow2_bits_low by lia. apply andb_true_r.
    + rewrite Z.ones_spec_high by lia.
      rewrite Z.mod_pow2_bits_high by lia. apply andb_false_r.
Qed.

Lemma odd_mod_2 (w : Z) : w mod 2 = if Z.odd w then 1 else 0.
Proof.
  rewrite Zodd_mod.
  pose proof (Z.mod_pos_bound w 2 ltac:(lia)) as Hb.
  destruct (Z.eqb_spec (w mod 2) 1) as [E | E]; lia.
Qed.

(** X5. The lock word is the version shifted left by one, plus the lock
    bit: [getVersion] and [isLocked] read the two parts back. *)
Theorem word_layout (w : Z) :
  w = 2 * getVersion w + (if isLocked w then 1 else 0).
Proof.
  rewrite getVersion_div, isLocked_odd, <- odd_mod_2.
  apply Z.div_mod. lia.
Qed.

Lemma lock_in_range (w : Z) :
  0 <= w < 2 ^ 64 ->
  lock w = (if isLocked w then (false, w) else (true, w + 1)).
Proof.
  intros Hw.
  rewrite lock_spec, land_not_1, (Z.mod_small w) by lia.
  rewrite isLocked_odd.
  pose proof (Z.div_mod w 2 ltac:(lia)) as Hdm.
  rewrite odd_mod_2 in Hdm.
  destruct (Z.odd w) eqn:Hodd; simpl; [reflexivity |].
  replace (2 * (w / 2)) with w by lia.
  rewrite Z.eqb_refl. simpl.
  replace w with (2 * (w / 2)) at 1 by lia.
  rewrite lor_double_1. f_equal. lia.
Qed.

(** X1. On a 64-bit word [lock] is a single attempt: it fails and leaves
    the word alone when the lock bit is set, and otherwise succeeds and sets
    the lock bit; either way the version is the one it found. *)
Theorem lock_single_attempt (w : Z) :
  0 <= w < 2 ^ 64 ->
  lock w = (if isLocked w then (false, w) else (true, w + 1))
  /\ getVersion (snd (lock w)) = getVersion w.
Proof.
  intros Hw. split; [apply lock_in_range, Hw | apply getVersion_lock].
Qed.

Lemma lock_single_attempt_witness :
  0 <= 12 < 2 ^ 64
  /\ lock 12 = (if isLocked 12 then (false, 12) else (true, 12 + 1))
  /\ getVersion (snd (lock 12)) = getVersion 12.
Proof.
  split; [lia |]. apply (lock_single_attempt 12). lia.
Defined.

(** X2. [lock] is not reentrant: on the word a successful [lock] left,
    another [lock] fails and changes nothing. *)
Theorem lock_not_reentrant (w w' : Z) :
  lock w = (true, w') -> lock w' = (false, w').
Proof.
  intros H. apply lock_success in H as [_ ->].
  apply lock_locked_fails, isLocked_lor_1.
Qed.

Lemma lock_not_reentrant_witness :
  lock 12 = (true, 13) /\ lock 13 = (false, 13).
Proof.
  split; [reflexivity |]. apply (lock_not_reentrant 12 13). reflexivity.
Defined.

(** X3. [unlock] does not look at the lock bit and keeps 32 bits of the
    word: whatever the word, it leaves the lock free at one more than the
    version it found taken modulo [2 ^ 31]. *)
Theorem unlock_version (w : Z) :
  isLocked (unlock w) = false
  /\ getVersion (unlock w) = getVersion w mod 2 ^ 31 + 1.
Proof.
  split; [apply isLocked_unlock |].
  unfold unlock. rewrite !getVersion_div, land_not_1u.
  assert (Hq : (w mod 2 ^ 32) / 2 = (w / 2) mod 2 ^ 31).
  { change (2 ^ 32) with (2 * 2 ^ 31).
    rewrite Z.rem_mul_r by lia.
    pose proof (Z.mod_pos_bound w 2 ltac:(lia)).
    symmetry. apply Z.div_unique with (r := w mod 2); lia. }
  rewrite Hq.
  pose proof (Z.mod_pos_bound (w / 2) (2 ^ 31) ltac:(lia)) as Hb.
  unfold wrap. rewrite Z.mod_small by lia.
  symmetry. apply Z.div_unique with (r := 0); lia.
Qed.

(** X4. [setVersion] stores the version with the lock bit set, and keeps 63
    bits of it: [getVersion] then gives the version modulo [2 ^ 63]. *)
Theorem setVersion_getVersion (v : Z) :
  isLocked (setVersion v) = true
  /\ getVersion (setVersion v) = v mod 2 ^ 63.
Proof.
  unfold setVersion. split; [apply isLocked_lor_1 |].
  rewrite getVersion_div, Z.shiftl_mul_pow2 by lia.
  unfold wrap. change (2 ^ 1) with 2. change (2 ^ 64) with (2 * 2 ^ 63).
  rewrite (Z.mul_comm v 2), Z.mul_mod_distr_l by lia.
  rewrite lor_double_1.
  symmetry. apply Z.div_unique with (r := 1); lia.
Qed.

(** ** tm.cpp: [tm_begin] and [tm_end] *)

Section EndOfTransaction.

Variable NUM_LOCKS : Z.
Variable validateRead : State -> Z -> Z -> bool.

Local Abbreviation stripe := (stripe NUM_LOCKS).
Local Abbreviation commit_writes := (commit_writes NUM_LOCKS).
Local Abbreviation tm_end_run := (tm_end_run NUM_LOCKS validateRead).

Lemma lock_write_set_frame (st : State) (txn : Transaction) (b : bool)
    (st1 : State) (held : list Z) :
  lock_write_set NUM_LOCKS (write_set txn) st [] = (b, st1, held) ->
  gvc st1 = gvc st /\ memory st1 = memory st
  /\ seg_list st1 = seg_list st /\ list_lock st1 = list_lock st.
Proof.
  intros Hrun.
  apply (lock_write_set_inv NUM_LOCKS validateRead) in Hrun as (Hg & Hm & Hs & Hl & _).
  - split_and!; assumption.
  - intros i Hi. set_solver.
  - apply NoDup_nil_2.
Qed.

(** X6. [tm_end] deletes the transaction on its commit exit only: after an
    abort it is still allocated.  The clock is as it was when a lock could
    not be taken and one higher (modulo [2 ^ 64]) otherwise, a failed
    validation included; the segment list and its lock are not touched. *)
Theorem tm_end_clock_and_transaction (st : State) (txn : Transaction)
    (e : exit) (st' : State) (o : option Transaction) :
  tm_end_run st txn = (e, st', o) ->
  o = match e with Committed => None | _ => Some txn end
  /\ gvc st' = match e with
               | LockFailed => gvc st
               | _ => wrap (gvc st + 1)
               end
  /\ seg_list st' = seg_list st
  /\ list_lock st' = list_lock st.
Proof.
  intros Hrun.
  destruct (tm_end_run_cases NUM_LOCKS validateRead st txn)
    as (b & st1 & held & Hlk & Hcases).
  apply lock_write_set_frame in Hlk as (Hg & _ & Hs & Hl).
  destruct Hcases as [[_ H] | [[_ H] | [_ H]]];
    rewrite H in Hrun; injection Hrun as <- <- <-.
  - destruct (freeHeldLocks_frame held st1) as (-> & _ & -> & ->). auto.
  - destruct (freeHeldLocks_frame held (set_gvc st1 (wrap (gvc st1 + 1))))
      as (-> & _ & -> & ->).
    simpl. rewrite Hg. auto.
  - destruct (freeHeldLocks_frame held
                (commit_writes (write_set txn) (gvc st1)
                   (set_gvc st1 (wrap (gvc st1 + 1)))))
      as (-> & _ & -> & ->).
    destruct (commit_writes_frame NUM_LOCKS (write_set txn) (gvc st1)
                (set_gvc st1 (wrap (gvc st1 + 1)))) as (-> & -> & ->).
    simpl. rewrite Hg. auto.
Qed.

(** X7. A write set with an address whose stripe is locked when [tm_end]
    is called cannot commit: [tm_end] leaves through the exit of phase (3)
    with the memory and the clock as they were. *)
Theorem tm_end_locked_stripe_fails (st : State) (txn : Transaction)
    (addr : Z) (w : WriteOperation) :
  (addr, w) ∈ write_set txn ->
  isLocked (lock_at st (stripe addr)) = true ->
  exists st',
    tm_end_run st txn = (LockFailed, st', Some txn)
    /\ memory st' = memory st
    /\ gvc st' = gvc st.
Proof.
  intros Hin Hlocked.
  destruct (tm_end_run_cases NUM_LOCKS validateRead st txn)
    as (ok & st1 & held & Hlk & Hcases).
  apply (lock_write_set_start NUM_LOCKS validateRead) in Hlk as (Hg & Hm & _ & Hnew & _ & Hall).
  destruct ok.
  - exfalso.
    assert (Hs : stripe addr ∈ held).
    { rewrite (Hall eq_refl).
      apply list_elem_of_In.
      apply (in_map (fun kv => stripe (fst kv)) _ (addr, w)).
      apply list_elem_of_In. exact Hin. }
    destruct (Hnew _ Hs) as [Hfree _]. congruence.
  - destruct Hcases as [[_ H] | [[? _] | [? _]]]; try discriminate.
    eexists. split; [exact H |].
    destruct (freeHeldLocks_frame held st1) as (-> & -> & _). auto.
Qed.

(** X8. A commit releases every lock it took: each lock has the lock bit
    it had before the call; the lock of every stripe of the write set is left
    as [unlock] leaves the word [setVersion] stored for the clock value
    found, and every other lock holds the word it held. *)
Theorem tm_end_commit_releases (st : State) (txn : Transaction) (st' : State)
    (o : option Transaction) :
  tm_end_run st txn = (Committed, st', o) ->
  forall i,
    isLocked (lock_at st' i) = isLocked (lock_at st i)
    /\ (i ∈ map (fun kv => stripe (fst kv)) (write_set txn) ->
        lock_at st' i = unlock (setVersion (gvc st)))
    /\ (i ∉ map (fun kv => stripe (fst kv)) (write_set txn) ->
        lock_at st' i = lock_at st i).
Proof.
  intros Hrun i.
  destruct (tm_end_run_cases NUM_LOCKS validateRead st txn)
    as (b & st1 & held & Hlk & Hcases).
  apply (lock_write_set_start NUM_LOCKS validateRead) in Hlk as (Hg & _ & Hnd & Hnew & Hold & Hall).
  destruct Hcases as [[_ H] | [[_ H] | [Hb H]]];
    rewrite H in Hrun; try discriminate.
  injection Hrun as <- <-. rewrite Hg.
  specialize (Hall Hb). subst held.
  rewrite lock_at_freeHeldLocks by exact Hnd.
  rewrite (lock_at_commit_writes NUM_LOCKS validateRead).
  change (lock_at (set_gvc st1 (wrap (gvc st + 1))) i) with (lock_at st1 i).
  destruct (decide (i ∈ map (fun kv => stripe (fst kv)) (write_set txn)))
    as [Hi | Hi].
  - split_and!.
    + rewrite isLocked_unlock. symmetry. apply Hnew, Hi.
    + reflexivity.
    + contradiction.
  - rewrite (Hold i Hi). split_and!; [reflexivity | contradiction | reflexivity].
Qed.

Lemma lock_write_set_succeeds (ws : list (Z * WriteOperation)) :
  forall (st : State) (held : list Z),
    NoDup (map (fun kv => stripe (fst kv)) ws) ->
    (forall i, i ∈ map (fun kv => stripe (fst kv)) ws ->
               0 <= lock_at st i < 2 ^ 64 /\ isLocked (lock_at st i) = false) ->
    exists st1 held',
      lock_write_set NUM_LOCKS ws st held = (true, st1, held').
Proof.
  induction ws as [| kv ws IH]; intros st held Hnd Hfree.
  - simpl. eauto.
  - cbn [map] in Hnd, Hfree. apply NoDup_cons in Hnd as [Hkv Hnd].
    destruct (Hfree (stripe (fst kv))) as [Hrange Hbit]; [set_solver |].
    cbn [lock_write_set].
    rewrite (lock_in_range _ Hrange), Hbit.
    apply IH; [exact Hnd |].
    intros i Hi. rewrite lock_at_set_lock.
    rewrite decide_False by (intros <-; contradiction).
    apply Hfree. set_solver.
Qed.

(** X9. When the stripes of the write set are pairwise distinct and their
    locks are free 64-bit words, phase (3) takes every lock: [tm_end] does
    not leave through its lock-failure exit, and with an empty read set it
    commits. *)
Theorem tm_end_free_stripes_commit (st : State) (txn : Transaction) :
  NoDup (map (fun kv => stripe (fst kv)) (write_set txn)) ->
  (forall i, i ∈ map (fun kv => stripe (fst kv)) (write_set txn) ->
             0 <= lock_at st i < 2 ^ 64 /\ isLocked (lock_at st i) = false) ->
  fst (fst (tm_end_run st txn)) <> LockFailed
  /\ (read_set txn = ∅ -> fst (fst (tm_end_run st txn)) = Committed).
Proof.
  intros Hnd Hfree.
  destruct (lock_write_set_succeeds (write_set txn) st [] Hnd Hfree)
    as (st1 & held & Hlk).
  unfold tm_end_run. rewrite Hlk.
  split.
  - destruct (forallb _ _); discriminate.
  - intros ->. rewrite elements_empty. reflexivity.
Qed.

(** X10. The transaction [tm_begin] returns has the clock as read version
    and nothing in its sets; ended in any state before it has read or
    written, read-only or not, it commits: the clock goes up by one and
    nothing else changes. *)
Theorem tm_begin_then_end (st : State) (ro : bool) (txn : Transaction) :
  tm_begin st ro false = Some txn ->
  rv txn = gvc st /\ is_ro txn = ro
  /\ write_set txn = [] /\ read_set txn = ∅
  /\ forall st',
       tm_end_run st' txn
       = (Committed, set_gvc st' (wrap (gvc st' + 1)), None).
Proof.
  intros [= <-]. split_and!; reflexivity.
Qed.

End EndOfTransaction.

(** ** tm.cpp: [tm_read] *)

Section Reads.

Variable validateRead : State -> Z -> Z -> bool.

(** What a run of the read-only loop leaves, whatever its result. *)
Lemma read_ro_frame (n : nat) :
  forall (i source target : Z) (st : State) (txn : Transaction) (b : bool)
         (st' : State) (o : option Transaction),
    read_ro validateRead n i source target st txn = (b, st', o) ->
    gvc st' = gvc st /\ locks st' = locks st
    /\ list_lock st' = list_lock st /\ seg_list st' = seg_list st
    /\ o = (if b then Some txn else None)
    /\ (forall addr,
          (forall k, i <= k < i + Z.of_nat n ->
                     addr <> target + sizeof_word * k) ->
          load st' addr = load st addr).
Proof.
  induction n as [| n IH]; intros i source target st txn b st' o H;
    simpl in H.
  - injection H as <- <- <-. split_and!; reflexivity || auto.
  - destruct (negb _).
    + injection H as <- <- <-. split_and!; try reflexivity.
      intros addr Hout. rewrite load_store, decide_False; [reflexivity |].
      intros Heq. apply (Hout i); [lia | congruence].
    + apply IH in H as (Hg & Hl & Hll & Hs & Ho & Hout').
      split_and!; try assumption.
      intros addr Hout. rewrite Hout' by (intros k Hk; apply Hout; lia).
      rewrite load_store, decide_False; [reflexivity |].
      intros Heq. apply (Hout i); [lia | congruence].
Qed.

Lemma read_ro_values (n : nat) :
  forall (i source target : Z) (st : State) (txn : Transaction)
         (st' : State) (o : option Transaction),
    read_ro validateRead n i source target st txn = (true, st', o) ->
    (forall j k, i <= j < i + Z.of_nat n -> i <= k < i + Z.of_nat n ->
                 target + sizeof_word * j <> source + sizeof_word * k) ->
    forall k, i <= k < i + Z.of_nat n ->
              load st' (target + sizeof_word * k)
              = load st (source + sizeof_word * k).
Proof.
  induction n as [| n IH]; intros i source target st txn st' o H Hdis k Hk;
    simpl in H; [lia |].
  destruct (negb _); [discriminate |].
  destruct (Z.eq_dec k i) as [-> | Hne].
  - apply read_ro_frame in H as (_ & _ & _ & _ & _ & Hout).
    rewrite Hout by (intros k Hk'; unfold sizeof_word; lia).
    rewrite load_store, decide_True by reflexivity. reflexivity.
  - rewrite (IH _ _ _ _ _ _ _ H) by (try (intros j k' Hj Hk'; apply Hdis); lia).
    rewrite load_store, decide_False; [reflexivity |].
    apply Hdis; lia.
Qed.

(** What a run of the read-write loop leaves, whatever its result. *)
Lemma read_rw_frame (n : nat) :
  forall (i source target : Z) (st : State) (txn : Transaction) (b : bool)
         (st' : State) (o : option Transaction),
    read_rw validateRead n i source target st txn = (b, st', o) ->
    gvc st' = gvc st /\ locks st' = locks st
    /\ list_lock st' = list_lock st /\ seg_list st' = seg_list st
    /\ (o = None <-> b = false)
    /\ (forall addr,
          (forall k, i <= k < i + Z.of_nat n ->
                     addr <> target + sizeof_word * k) ->
          load st' addr = load st addr).
Proof.
  induction n as [| n IH]; intros i source target st txn b st' o H;
    simpl in H.
  - injection H as <- <- <-. split_and!; try reflexivity; try (split; intros; congruence); auto.
  - destruct (negb _).
    { injection H as <- <- <-. split_and!; try reflexivity; try (split; intros; congruence); auto. }
    assert (Hst1 : forall addr v,
               (forall k, i <= k < i + Z.of_nat (S n) ->
                          addr <> target + sizeof_word * k) ->
               load (store st (target + sizeof_word * i) v) addr
               = load st addr).
    { intros addr v Hout. rewrite load_store, decide_False; [reflexivity |].
      intros Heq. apply (Hout i); [lia | congruence]. }
    destruct (find (source + sizeof_word * i) (write_set txn)) as [it |].
    + destruct (negb _).
      { injection H as <- <- <-.
        split_and!; try reflexivity; try (split; intros; congruence); auto. }
      apply IH in H as (Hg & Hl & Hll & Hs & Ho & Hout').
      split_and!; try assumption.
      intros addr Hout. rewrite Hout' by (intros k Hk; apply Hout; lia).
      apply Hst1, Hout.
    + destruct (negb _).
      { injection H as <- <- <-.
        split_and!; try reflexivity; try (split; intros; congruence); auto. }
      apply IH in H as (Hg & Hl & Hll & Hs & Ho & Hout').
      split_and!; try assumption.
      intros addr Hout. rewrite Hout' by (intros k Hk; apply Hout; lia).
      apply Hst1, Hout.
Qed.

Lemma read_rw_success (n : nat) :
  forall (i source target : Z) (st : State) (txn : Transaction)
         (st' : State) (o : option Transaction),
    read_rw validateRead n i source target st txn = (true, st', o) ->
    exists txn',
      o = Some txn'
      /\ rv txn' = rv txn /\ is_ro txn' = is_ro txn
      /\ write_set txn' = write_set txn
      /\ (forall addr,
            addr ∈ read_set txn'
            <-> addr ∈ read_set txn
                \/ exists k, i <= k < i + Z.of_nat n
                             /\ addr = source + sizeof_word * k)
      /\ ((forall j k, i <= j < i + Z.of_nat n -> i <= k < i + Z.of_nat n ->
                       target + sizeof_word * j <> source + sizeof_word * k) ->
          forall k, i <= k < i + Z.of_nat n ->
                    load st' (target + sizeof_word * k)
                    = match find (source + sizeof_word * k) (write_set txn) with
                      | Some w => val w
                      | None => load st (source + sizeof_word * k)
                      end).
Proof.
  induction n as [| n IH]; intros i source target st txn st' o H; simpl in H.
  - injection H as <- <-. exists txn. split_and!; try reflexivity.
    + intros addr. split; [auto |]. intros [Hin | (k & Hk & _)]; [exact Hin | lia].
    + intros _ k Hk. lia.
  - destruct (negb _); [discriminate |].
    set (st1 := match find (source + sizeof_word * i) (write_set txn) with
                | Some it => store st (target + sizeof_word * i) (val it)
                | None => store st (target + sizeof_word * i)
                                (load st (source + sizeof_word * i))
                end) in *.
    destruct (negb _); [discriminate |].
    pose proof (read_rw_frame _ _ _ _ _ _ _ _ _ H)
      as (_ & _ & _ & _ & _ & Hout).
    apply IH in H as (txn' & -> & Hrv & Hro & Hws & Hrs & Hval).
    simpl in Hrv, Hro, Hws, Hrs.
    exists txn'. split_and!; try assumption; try reflexivity.
    + intros addr. rewrite Hrs. split.
      * intros [Hin | (k & Hk & ->)].
        -- apply elem_of_union in Hin as [Hin | Hin]; [| left; exact Hin].
           apply elem_of_singleton in Hin as ->. right. exists i. split; [lia | reflexivity].
        -- right. exists k. split; [lia | reflexivity].
      * intros [Hin | (k & Hk & ->)].
        -- left. set_solver.
        -- destruct (Z.eq_dec k i) as [-> | Hne].
           ++ left. set_solver.
           ++ right. exists k. split; [lia | reflexivity].
    + intros Hdis k Hk.
      assert (Hload1 : forall a,
                 a <> target + sizeof_word * i -> load st1 a = load st a).
      { intros a Ha. unfold st1.
        destruct (find _ _); rewrite load_store, decide_False;
          congruence. }
      destruct (Z.eq_dec k i) as [-> | Hne].
      * rewrite Hout by (intros k Hk'; unfold sizeof_word; lia).
        unfold st1. destruct (find _ _);
          rewrite load_store, decide_True; reflexivity.
      * rewrite Hval by (try (intros j k' Hj Hk'; apply Hdis); lia).
        simpl.
        destruct (find (source + sizeof_word * k) (write_set txn));
          [reflexivity |].
        apply Hload1. apply not_eq_sym, Hdis; lia.
Qed.

(** X11. A [tm_read] of a read-only transaction that returns [true] has
    copied every source word to the matching target word (the two ranges not
    overlapping) and left the transaction as it was: nothing is recorded in
    its read set. *)
Theorem tm_read_ro_copies (st : State) (txn : Transaction)
    (source size target : Z) (st' : State) (o : option Transaction) :
  is_ro txn = true ->
  (forall j k, 0 <= j < size / align st -> 0 <= k < size / align st ->
               target + sizeof_word * j <> source + sizeof_word * k) ->
  tm_read validateRead st txn source size target = (true, st', o) ->
  o = Some txn
  /\ forall k, 0 <= k < size / align st ->
               load st' (target + sizeof_word * k)
               = load st (source + sizeof_word * k).
Proof.
  intros Hro Hdis H. unfold tm_read in H. rewrite Hro in H.
  split.
  - apply read_ro_frame in H as (_ & _ & _ & _ & Ho & _). exact Ho.
  - intros k Hk.
    apply (read_ro_values _ _ _ _ _ _ _ _ H); [| lia].
    intros j k' Hj Hk'. apply Hdis; lia.
Qed.

(** X12. A [tm_read] of a read-write transaction that returns [true] leaves
    the transaction with the same read version and write set, has added
    exactly the source addresses to its read set, and has given every
    target word the pending value of its source address when the write set
    has one and the word in memory otherwise (the two ranges not
    overlapping). *)
Theorem tm_read_rw_copies (st : State) (txn : Transaction)
    (source size target : Z) (st' : State) (o : option Transaction) :
  is_ro txn = false ->
  (forall j k, 0 <= j < size / align st -> 0 <= k < size / align st ->
               target + sizeof_word * j <> source + sizeof_word * k) ->
  tm_read validateRead st txn source size target = (true, st', o) ->
  exists txn',
    o = Some txn'
    /\ rv txn' = rv txn /\ write_set txn' = write_set txn
    /\ (forall addr,
          addr ∈ read_set txn'
          <-> addr ∈ read_set txn
              \/ exists k, 0 <= k < size / align st
                           /\ addr = source + sizeof_word * k)
    /\ forall k, 0 <= k < size / align st ->
                 load st' (target + sizeof_word * k)
                 = match find (source + sizeof_word * k) (write_set txn) with
                   | Some w => val w
                   | None => load st (source + sizeof_word * k)
                   end.
Proof.
  intros Hrw Hdis H. unfold tm_read in H. rewrite Hrw in H.
  apply read_rw_success in H as (txn' & -> & Hrv & _ & Hws & Hrs & Hval).
  exists txn'. split_and!; try assumption; try reflexivity.
  - intros addr. rewrite Hrs. split.
    + intros [Hin | (k & Hk & ->)]; [left; exact Hin |].
      right. exists k. split; [lia | reflexivity].
    + intros [Hin | (k & Hk & ->)]; [left; exact Hin |].
      right. exists k. split; [lia | reflexivity].
  - intros k Hk. apply Hval; [| lia].
    intros j k' Hj Hk'. apply Hdis; lia.
Qed.

(** X13. Whatever it returns, [tm_read] leaves the clock, every lock and the
    segment list as they were and writes no word outside the target range;
    and it returns [false] exactly when it has deleted the transaction. *)
Theorem tm_read_frame (st : State) (txn : Transaction)
    (source size target : Z) (b : bool) (st' : State)
    (o : option Transaction) :
  tm_read validateRead st txn source size target = (b, st', o) ->
  gvc st' = gvc st /\ locks st' = locks st
  /\ list_lock st' = list_lock st /\ seg_list st' = seg_list st
  /\ (o = None <-> b = false)
  /\ (forall addr,
        (forall k, 0 <= k < size / align st ->
                   addr <> target + sizeof_word * k) ->
        load st' addr = load st addr).
Proof.
  intros H. unfold tm_read in H. destruct (is_ro txn).
  - apply read_ro_frame in H as (Hg & Hl & Hll & Hs & Ho & Hout).
    split_and!; try assumption.
    + subst o. destruct b; split; intros; congruence.
    + intros addr Ha. apply Hout. intros k Hk. apply Ha. lia.
  - apply read_rw_frame in H as (Hg & Hl & Hll & Hs & Ho & Hout).
    split_and!; try assumption.
    intros addr Ha. apply Hout. intros k Hk. apply Ha. lia.
Qed.

End Reads.

(** ** The further properties on the concrete region *)

Lemma tm_end_clock_and_transaction_witness :
  tm_end_run Scenario.NUM_LOCKS Scenario.validateRead Scenario.st_b_locked
             Scenario.t_a_read_b
  = (ValidationFailed, Scenario.st_b_released, Some Scenario.t_a_read_b)
  /\ Some Scenario.t_a_read_b = Some Scenario.t_a_read_b
  /\ gvc Scenario.st_b_released = wrap (gvc Scenario.st_b_locked + 1)
  /\ seg_list Scenario.st_b_released = seg_list Scenario.st_b_locked
  /\ list_lock Scenario.st_b_released = list_lock Scenario.st_b_locked.
Proof.
  assert (E : tm_end_run Scenario.NUM_LOCKS Scenario.validateRead
                         Scenario.st_b_locked Scenario.t_a_read_b
              = (ValidationFailed, Scenario.st_b_released,
                 Some Scenario.t_a_read_b))
    by (vm_compute; reflexivity).
  split; [exact E |].
  exact (tm_end_clock_and_transaction Scenario.NUM_LOCKS Scenario.validateRead
           Scenario.st_b_locked Scenario.t_a_read_b ValidationFailed
           Scenario.st_b_released (Some Scenario.t_a_read_b) E).
Defined.

Lemma tm_end_locked_stripe_fails_witness :
  (Scenario.b, mkWriteOperation 65544 17) ∈ write_set Scenario.t_ab
  /\ isLocked (lock_at Scenario.st_b_locked
                 (stripe Scenario.NUM_LOCKS Scenario.b)) = true
  /\ exists st',
       tm_end_run Scenario.NUM_LOCKS Scenario.validateRead
                  Scenario.st_b_locked Scenario.t_ab
       = (LockFailed, st', Some Scenario.t_ab)
       /\ memory st' = memory Scenario.st_b_locked
       /\ gvc st' = gvc Scenario.st_b_locked.
Proof.
  assert (Hin : (Scenario.b, mkWriteOperation 65544 17)
                ∈ write_set Scenario.t_ab) by (simpl; set_solver).
  assert (Hl : isLocked (lock_at Scenario.st_b_locked
                           (stripe Scenario.NUM_LOCKS Scenario.b)) = true)
    by reflexivity.
  split; [exact Hin |]. split; [exact Hl |].
  exact (tm_end_locked_stripe_fails Scenario.NUM_LOCKS Scenario.validateRead
           Scenario.st_b_locked Scenario.t_ab Scenario.b _ Hin Hl).
Defined.

Lemma tm_end_commit_releases_witness :
  tm_end_run Scenario.NUM_LOCKS Scenario.validateRead Scenario.st0
             Scenario.t_a
  = (Committed, Scenario.st_a_committed, None)
  /\ forall i,
       isLocked (lock_at Scenario.st_a_committed i)
       = isLocked (lock_at Scenario.st0 i)
       /\ (i ∈ map (fun kv => stripe Scenario.NUM_LOCKS (fst kv))
                   (write_set Scenario.t_a) ->
           lock_at Scenario.st_a_committed i
           = unlock (setVersion (gvc Scenario.st0)))
       /\ (i ∉ map (fun kv => stripe Scenario.NUM_LOCKS (fst kv))
                   (write_set Scenario.t_a) ->
           lock_at Scenario.st_a_committed i = lock_at Scenario.st0 i).
Proof.
  assert (E : tm_end_run Scenario.NUM_LOCKS Scenario.validateRead Scenario.st0
                         Scenario.t_a
              = (Committed, Scenario.st_a_committed, None))
    by (vm_compute; reflexivity).
  split; [exact E |].
  exact (tm_end_commit_releases Scenario.NUM_LOCKS Scenario.validateRead
           Scenario.st0 Scenario.t_a Scenario.st_a_committed None E).
Defined.

Lemma tm_end_free_stripes_commit_witness :
  NoDup (map (fun kv => stripe Scenario.NUM_LOCKS (fst kv))
             (write_set Scenario.t_ab))
  /\ (forall i,
        i ∈ map (fun kv => stripe Scenario.NUM_LOCKS (fst kv))
                (write_set Scenario.t_ab) ->
        0 <= lock_at Scenario.st0 i < 2 ^ 64
        /\ isLocked (lock_at Scenario.st0 i) = false)
  /\ fst (fst (tm_end_run Scenario.NUM_LOCKS Scenario.validateRead
                          Scenario.st0 Scenario.t_ab)) <> LockFailed
  /\ (read_set Scenario.t_ab = ∅ ->
      fst (fst (tm_end_run Scenario.NUM_LOCKS Scenario.validateRead
                           Scenario.st0 Scenario.t_ab)) = Committed).
Proof.
  assert (Hnd : NoDup (map (fun kv => stripe Scenario.NUM_LOCKS (fst kv))
                           (write_set Scenario.t_ab))).
  { change (NoDup [0; 8]).
    apply NoDup_cons_2; [set_solver | apply NoDup_singleton]. }
  assert (Hfree : forall i,
             i ∈ map (fun kv => stripe Scenario.NUM_LOCKS (fst kv))
                     (write_set Scenario.t_ab) ->
             0 <= lock_at Scenario.st0 i < 2 ^ 64
             /\ isLocked (lock_at Scenario.st0 i) = false).
  { intros i Hi. change (lock_at Scenario.st0 i) with 0.
    split; [lia | reflexivity]. }
  split; [exact Hnd |]. split; [exact Hfree |].
  exact (tm_end_free_stripes_commit Scenario.NUM_LOCKS Scenario.validateRead
           Scenario.st0 Scenario.t_ab Hnd Hfree).
Defined.

Lemma tm_begin_then_end_witness :
  tm_begin Scenario.st0 false false = Some Scenario.t0
  /\ rv Scenario.t0 = gvc Scenario.st0 /\ is_ro Scenario.t0 = false
  /\ write_set Scenario.t0 = [] /\ read_set Scenario.t0 = ∅
  /\ forall st',
       tm_end_run Scenario.NUM_LOCKS Scenario.validateRead st' Scenario.t0
       = (Committed, set_gvc st' (wrap (gvc st' + 1)), None).
Proof.
  split; [reflexivity |].
  exact (tm_begin_then_end Scenario.NUM_LOCKS Scenario.validateRead
           Scenario.st0 false Scenario.t0 eq_refl).
Defined.

Lemma tm_read_ro_copies_witness :
  exists st' o,
    is_ro (mkTransaction 5 ∅ [] true) = true
    /\ (forall j k, 0 <= j < 16 / align Scenario.st0 ->
                    0 <= k < 16 / align Scenario.st0 ->
                    65600 + sizeof_word * j <> 65536 + sizeof_word * k)
    /\ tm_read Scenario.validateRead Scenario.st0 (mkTransaction 5 ∅ [] true)
               65536 16 65600 = (true, st', o)
    /\ o = Some (mkTransaction 5 ∅ [] true)
    /\ forall k, 0 <= k < 16 / align Scenario.st0 ->
                 load st' (65600 + sizeof_word * k)
                 = load Scenario.st0 (65536 + sizeof_word * k).
Proof.
  assert (Hdis : forall j k, 0 <= j < 16 / align Scenario.st0 ->
                             0 <= k < 16 / align Scenario.st0 ->
                             65600 + sizeof_word * j
                             <> 65536 + sizeof_word * k).
  { change (16 / align Scenario.st0) with 2. unfold sizeof_word. lia. }
  do 2 eexists. split; [reflexivity |]. split; [exact Hdis |].
  match goal with
  | |- ?E /\ _ => assert (HE : E) by (vm_compute; reflexivity)
  end.
  split; [exact HE |].
  exact (tm_read_ro_copies Scenario.validateRead Scenario.st0
           (mkTransaction 5 ∅ [] true) 65536 16 65600 _ _ eq_refl Hdis HE).
Defined.

Lemma tm_read_rw_copies_witness :
  exists st' o,
    is_ro Scenario.t_a = false
    /\ (forall j k, 0 <= j < 16 / align Scenario.st0 ->
                    0 <= k < 16 / align Scenario.st0 ->
                    65600 + sizeof_word * j <> Scenario.a + sizeof_word * k)
    /\ tm_read Scenario.validateRead Scenario.st0 Scenario.t_a Scenario.a 16
               65600 = (true, st', o)
    /\ exists txn',
         o = Some txn'
         /\ rv txn' = rv Scenario.t_a
         /\ write_set txn' = write_set Scenario.t_a
         /\ (forall addr,
               addr ∈ read_set txn'
               <-> addr ∈ read_set Scenario.t_a
                   \/ exists k, 0 <= k < 16 / align Scenario.st0
                                /\ addr = Scenario.a + sizeof_word * k)
         /\ forall k, 0 <= k < 16 / align Scenario.st0 ->
                      load st' (65600 + sizeof_word * k)
                      = match find (Scenario.a + sizeof_word * k)
                                   (write_set Scenario.t_a) with
                        | Some w => val w
                        | None => load Scenario.st0
                                       (Scenario.a + sizeof_word * k)
                        end.
Proof.
  assert (Hdis : forall j k, 0 <= j < 16 / align Scenario.st0 ->
                             0 <= k < 16 / align Scenario.st0 ->
                             65600 + sizeof_word * j
                             <> Scenario.a + sizeof_word * k).
  { change (16 / align Scenario.st0) with 2.
    unfold sizeof_word, Scenario.a. lia. }
  do 2 eexists. split; [reflexivity |]. split; [exact Hdis |].
  match goal with
  | |- ?E /\ _ => assert (HE : E) by (vm_compute; reflexivity)
  end.
  split; [exact HE |].
  exact (tm_read_rw_copies Scenario.validateRead Scenario.st0 Scenario.t_a
           Scenario.a 16 65600 _ _ eq_refl Hdis HE).
Defined.

Lemma tm_read_frame_witness :
  exists st' o,
    tm_read Scenario.validateRead Scenario.st0 Scenario.t0 Scenario.a 8 65600
    = (true, st', o)
    /\ gvc st' = gvc Scenario.st0
    /\ locks st' = locks Scenario.st0
    /\ list_lock st' = list_lock Scenario.st0
    /\ seg_list st' = seg_list Scenario.st0
    /\ (o = None <-> true = false)
    /\ (forall addr,
          (forall k, 0 <= k < 8 / align Scenario.st0 ->
                     addr <> 65600 + sizeof_word * k) ->
          load st' addr = load Scenario.st0 addr).
Proof.
  do 2 eexists.
  match goal with
  | |- ?E /\ _ => assert (HE : E) by (vm_compute; reflexivity)
  end.
  split; [exact HE |].
  exact (tm_read_frame Scenario.validateRead Scenario.st0 Scenario.t0
           Scenario.a 8 65600 true _ _ HE).
Defined.

Lemma tm_end_commit_versions_witness :
  exists st',
    tm_end_run Scenario.NUM_LOCKS Scenario.validateRead Scenario.st0
               Scenario.t_ab = (Committed, st', None)
    /\ 0 <= gvc Scenario.st0 < 2 ^ 31
    /\ gvc st' = gvc Scenario.st0 + 1
    /\ forall addr w,
         (addr, w) ∈ write_set Scenario.t_ab ->
         getVersion (lock_at st' (stripe Scenario.NUM_LOCKS addr))
         = gvc Scenario.st0 + 1
         /\ isLocked (lock_at st' (stripe Scenario.NUM_LOCKS addr)) = false.
Proof.
  eexists.
  match goal with
  | |- ?E /\ _ => assert (HE : E) by (vm_compute; reflexivity)
  end.
  assert (Hc : 0 <= gvc Scenario.st0 < 2 ^ 31) by (simpl; lia).
  split; [exact HE |]. split; [exact Hc |].
  exact (tm_end_commit_versions Scenario.NUM_LOCKS Scenario.validateRead
           Scenario.st0 Scenario.t_ab _ None HE Hc).
Defined.

(** ** [tm_end] with the release of the spec on the abort exits *)

Lemma tm_end_run_with_freeHeldLocks (NUM_LOCKS : Z)
    (validateRead : State -> Z -> Z -> bool) (st : State)
    (txn : Transaction) :
  tm_end_run_with NUM_LOCKS validateRead freeHeldLocks st txn
  = tm_end_run NUM_LOCKS validateRead st txn.
Proof. reflexivity. Qed.





Section AbortWithRestore.

Variable NUM_LOCKS : Z.
Variable validateRead : State -> Z -> Z -> bool.



End AbortWithRestore.


(** ** [tm_write] on a region aligned on more than a word *)

(** C9 (the code as it is). On a region aligned on 16, a [tm_write] of 32
    bytes to [a] runs over [32 / 16] words: it puts the words at 4096 and
    4104 in the write set and leaves those at 4112 and 4120 out, and the
    commit stores the first two source words and leaves the other two
    target words as they were. *)
Theorem tm_write_counts_words_by_alignment
    (validateRead : State -> Z -> Z -> bool) :
  exists txn' st',
    align Scenario.st16 = 16
    /\ tm_write Scenario.st16 Scenario.t0 65536 32 Scenario.a
       = (true, Scenario.st16, Some txn')
    /\ find 4096 (write_set txn') = Some (mkWriteOperation 65536 170)
    /\ find 4104 (write_set txn') = Some (mkWriteOperation 65544 17)
    /\ find 4112 (write_set txn') = None
    /\ find 4120 (write_set txn') = None
    /\ load Scenario.st16 65552 = 34 /\ load Scenario.st16 65560 = 51
    /\ tm_end_run Scenario.NUM_LOCKS validateRead Scenario.st16 txn'
       = (Committed, st', None)
    /\ load st' 4096 = 170 /\ load st' 4104 = 17
    /\ load st' 4112 = 0 /\ load st' 4120 = 0.
Proof.
  do 2 eexists.
  split; [reflexivity |].
  split; [vm_compute; reflexivity |].
  split; [reflexivity |]. split; [reflexivity |].
  split; [reflexivity |]. split; [reflexivity |].
  split; [reflexivity |]. split; [reflexivity |].
  split; [vm_compute; reflexivity |].
  split; [vm_compute; reflexivity |].
  split; [vm_compute; reflexivity |].
  split; vm_compute; reflexivity.
Qed.
